(** * polyglot-ui: reachability-filtered catalog extraction and merge

    A shallow embedding of the command modules of [polyglot_ui]
    ([update.py], [compile.py], [html.py], [modules.py], [helptexts.py])
    and the properties their specification states about them.

    Python strings are modelled as [string] (characters restricted to code
    points below 256), Python dicts keyed by small integers as [gmap nat],
    the catalog ([polib.POFile]) as the list of its entries, and an entry
    reference returned by [po.find] as an index into that list, so that a
    mutation through the reference is an update of the list at that index. *)

From Stdlib Require Import Ascii String.
From stdpp Require Import gmap strings list fin_maps.

(** ** Python string primitives used by the commands *)

Module PyStr.

(** [bool(s)] for a string: the empty string is the only falsy one. *)
Definition truthy (s : string) : bool :=
  match s with
  | EmptyString => false
  | String _ _ => true
  end.

(** [str.isspace] on one character, for code points below 256. *)
Definition isspace (c : ascii) : bool :=
  let n := nat_of_ascii c in
  ((9 <=? n) && (n <=? 13)) || ((28 <=? n) && (n <=? 32))
  || (n =? 133) || (n =? 160).

Fixpoint lstrip_chars (l : list ascii) : list ascii :=
  match l with
  | [] => []
  | c :: l' => if isspace c then lstrip_chars l' else l
  end.

Definition lstrip (s : string) : string :=
  string_of_list_ascii (lstrip_chars (list_ascii_of_string s)).

Definition rstrip (s : string) : string :=
  string_of_list_ascii
    (rev (lstrip_chars (rev (list_ascii_of_string s)))).

(** [s.strip()] *)
Definition strip (s : string) : string := rstrip (lstrip s).

(** [s.endswith(suffix)] *)
Definition endswith (s suffix : string) : bool :=
  let n := String.length s in
  let k := String.length suffix in
  (k <=? n) && String.eqb (String.substring (n - k) k s) suffix.

(** [s.replace(old, new)] for a non-empty [old]: the occurrences of [old]
    are found from the left and do not overlap.  [skip] counts the
    characters of a matched occurrence still to be dropped. *)
Fixpoint replace_from (old new : string) (skip : nat) (s : string) : string :=
  match s with
  | EmptyString => EmptyString
  | String c s' =>
      match skip with
      | S k => replace_from old new k s'
      | O =>
          if String.prefix old s
          then new +:+ replace_from old new (String.length old - 1) s'
          else String c (replace_from old new 0 s')
      end
  end.

Definition replace (old new s : string) : string := replace_from old new 0 s.

(** [s.split(sep)] for a one-character separator; the result is never
    empty ([''.split('.')] is [['']]). *)
Fixpoint split (sep : ascii) (s : string) : list string :=
  match s with
  | EmptyString => [EmptyString]
  | String c s' =>
      if Ascii.eqb c sep then EmptyString :: split sep s'
      else match split sep s' with
           | w :: ws => String c w :: ws
           | [] => [String c EmptyString]
           end
  end.

(** [sep.join(parts)] *)
Definition join (sep : string) (parts : list string) : string :=
  String.concat sep parts.

End PyStr.

(** ** The catalog model ([polib.POFile] and [polib.POEntry])

    The fields are the ones the commands read or write.  An absent
    [msgid_plural] is the empty string: the commands only test it for
    truthiness.  [msgstr_plural] is the dict from plural index to
    translated string. *)

Record POEntry := mkPOEntry {
  msgid : string;
  msgid_plural : string;
  msgstr : string;
  msgstr_plural : gmap nat string;
  occurrences : list (string * nat);
  fuzzy : bool
}.

Abbreviation POFile := (list POEntry).

Definition set_msgstr (e : POEntry) (s : string) : POEntry :=
  mkPOEntry (msgid e) (msgid_plural e) s (msgstr_plural e)
            (occurrences e) (fuzzy e).

Definition set_msgstr_plural (e : POEntry) (d : gmap nat string) : POEntry :=
  mkPOEntry (msgid e) (msgid_plural e) (msgstr e) d
            (occurrences e) (fuzzy e).

Definition set_fuzzy (e : POEntry) (b : bool) : POEntry :=
  mkPOEntry (msgid e) (msgid_plural e) (msgstr e) (msgstr_plural e)
            (occurrences e) b.

(** Modelled from the spec: [po.find(st)] of the catalog I/O collaborator
    (polib, not part of the repository's sources).  The catalog is
    "queryable by exact msgid lookup"; the result is the first entry whose
    [msgid] is [st], together with its position in the catalog, which
    stands for the reference to the entry object, or [None]. *)
Definition find (po : POFile) (st : string) : option (nat * POEntry) :=
  list_find (λ e, msgid e = st) po.

(** ** Merge input ([update.py]) *)

(** The value of the ["msgstr"] key of a structured record. *)
Inductive msgstr_value :=
| MsgstrList (l : list string)
| MsgstrStr (s : string)
| MsgstrOther.

(** One value of the translations mapping, by the [isinstance] tests of
    the loop: a [str], a [dict] (with or without a ["msgstr"] key), or
    anything else JSON can hold. *)
Inductive translation_data :=
| TStr (s : string)
| TDict (msgstr_field : option msgstr_value)
| TOther.

Record counters := mkCounters {
  updated_count : nat;
  skipped_count : nat;
  not_found_count : nat
}.

Definition zero_counters : counters := mkCounters 0 0 0.

Definition incr_updated (c : counters) : counters :=
  mkCounters (S (updated_count c)) (skipped_count c) (not_found_count c).
Definition incr_skipped (c : counters) : counters :=
  mkCounters (updated_count c) (S (skipped_count c)) (not_found_count c).
Definition incr_not_found (c : counters) : counters :=
  mkCounters (updated_count c) (skipped_count c) (S (not_found_count c)).

Definition total_count (c : counters) : nat :=
  updated_count c + skipped_count c + not_found_count c.

(** [not msgstr or not msgstr.strip()] *)
Definition is_empty_translation (s : string) : bool :=
  negb (PyStr.truthy s) || negb (PyStr.truthy (PyStr.strip s)).

(** [not entry.msgstr or entry.msgstr != msgstr] *)
Definition singular_differs (e : POEntry) (s : string) : bool :=
  negb (PyStr.truthy (msgstr e)) || negb (String.eqb (msgstr e) s).

(** [entry.msgstr = msgstr; entry.fuzzy = False] *)
Definition apply_singular (e : POEntry) (s : string) : POEntry :=
  set_fuzzy (set_msgstr e s) false.

(** The detection loop over [enumerate(msgstr_value)], from index [idx].
    [None] is the [KeyError] of [entry.msgstr_plural[idx]] when [idx] is
    below the dict's length but not one of its keys. *)
Fixpoint needs_update_from (d : gmap nat string) (idx : nat)
    (l : list string) : option bool :=
  match l with
  | [] => Some false
  | plural_translation :: l' =>
      if idx <? size d then
        match d !! idx with
        | None => None
        | Some cur =>
            if String.eqb cur plural_translation
            then needs_update_from d (S idx) l'
            else Some true
        end
      else Some true
  end.

(** The assignment loop [entry.msgstr_plural[idx] = plural_translation]. *)
Fixpoint assign_from (d : gmap nat string) (idx : nat)
    (l : list string) : gmap nat string :=
  match l with
  | [] => d
  | plural_translation :: l' => assign_from (<[idx := plural_translation]> d) (S idx) l'
  end.

Definition apply_plural (e : POEntry) (l : list string) : POEntry :=
  set_fuzzy (set_msgstr_plural e (assign_from (msgstr_plural e) 0 l)) false.

(** [any(s and s.strip() for s in msgstr_value)] *)
Definition any_nonempty (l : list string) : bool :=
  existsb (λ s, PyStr.truthy s && PyStr.truthy (PyStr.strip s)) l.

(** The body of the loop [for msgid, translation_data in
    translations.items()]: the catalog and the three counters after one
    record, or [None] when the body raises. *)
Definition merge_record (po : POFile) (c : counters)
    (rec : string * translation_data) : option (POFile * counters) :=
  let '(m, translation_data) := rec in
  match translation_data with
  | TStr s =>
      if is_empty_translation s then Some (po, incr_skipped c)
      else
        match find po m with
        | Some (i, entry) =>
            if singular_differs entry s
            then Some (<[i := apply_singular entry s]> po, incr_updated c)
            else Some (po, c)
        | None => Some (po, incr_not_found c)
        end
  | TDict field =>
      match find po m with
      | None => Some (po, incr_not_found c)
      | Some (i, entry) =>
          match field with
          | Some (MsgstrList l) =>
              if negb (PyStr.truthy (msgid_plural entry))
              then Some (po, incr_skipped c)
              else if negb (any_nonempty l)
              then Some (po, incr_skipped c)
              else
                match needs_update_from (msgstr_plural entry) 0 l with
                | None => None
                | Some true =>
                    Some (<[i := apply_plural entry l]> po, incr_updated c)
                | Some false => Some (po, c)
                end
          | Some (MsgstrStr s) =>
              if is_empty_translation s then Some (po, incr_skipped c)
              else if singular_differs entry s
              then Some (<[i := apply_singular entry s]> po, incr_updated c)
              else Some (po, c)
          | Some MsgstrOther => Some (po, c)
          | None => Some (po, incr_skipped c)
          end
      end
  | TOther => Some (po, c)
  end.

(** The whole loop, over the items of the mapping in its own key order. *)
Fixpoint merge_loop (po : POFile) (c : counters)
    (translations : list (string * translation_data))
    : option (POFile * counters) :=
  match translations with
  | [] => Some (po, c)
  | rec :: rest =>
      match merge_record po c rec with
      | None => None
      | Some (po', c') => merge_loop po' c' rest
      end
  end.

(** The merge of [update.run]: the three counters start at zero. *)
Definition merge (po : POFile) (translations : list (string * translation_data))
    : option (POFile * counters) :=
  merge_loop po zero_counters translations.

(** ** Binary catalog path ([compile.py], [update.py]) *)

(** [compile.run]: [mo_file_path = args.po_file.replace('.po', '.mo')]. *)
Definition compile_mo_file_path (po_file : string) : string :=
  PyStr.replace ".po" ".mo" po_file.

(** The characters of the final path component, reversed. *)
Fixpoint name_rev (rev_path : list ascii) : list ascii :=
  match rev_path with
  | [] => []
  | c :: rest => if Ascii.eqb c "/" then [] else c :: name_rev rest
  end.

(** Position of the last ['.'] of a name, counted from its end. *)
Fixpoint dot_from_end (rev_name : list ascii) : option nat :=
  match rev_name with
  | [] => None
  | c :: rest => if Ascii.eqb c "." then Some 0 else S <$> dot_from_end rest
  end.

(** [PurePath.suffix] as a length: the final component's last ['.'] starts
    the suffix unless it is the first or the last character of the name. *)
Definition suffix_length (p : string) : nat :=
  let nm := name_rev (rev (list_ascii_of_string p)) in
  match dot_from_end nm with
  | Some j => if (0 <? j) && (S j <? length nm) then S j else 0
  | None => 0
  end.

(** [p.with_suffix(suffix)] of pathlib on a path written as a string with
    a non-empty final component: the old suffix, if any, is replaced. *)
Definition with_suffix (p suffix : string) : string :=
  String.substring 0 (String.length p - suffix_length p) p +:+ suffix.

(** [update.run]: [lino_mo_path = lino_po_path.with_suffix('.mo')]. *)
Definition update_mo_path (lino_po_path : string) : string :=
  with_suffix lino_po_path ".mo".

(** ** The host environment of the extraction commands

    What the extraction commands ask of their collaborators: polib's
    [entry.translated()], the interpreter's [sys.modules] with [hasattr]
    and [getattr], and [pathlib] with the file system behind it. *)

(** The value held by the variable [obj] of the reachability walks:
    [None] or an object. *)
Inductive pyval (pyobj : Type) :=
| PyNone
| PyObj (o : pyobj).
Arguments PyNone {pyobj}.
Arguments PyObj {pyobj} o.

(** [obj is not None] *)
Definition is_not_None {pyobj : Type} (v : pyval pyobj) : bool :=
  match v with
  | PyNone => false
  | PyObj _ => true
  end.

Class Polib := {
  (** [entry.translated()] *)
  translated : POEntry → bool
}.

Class Interp := {
  pyobj : Type;
  (** [sys.modules]: [name in sys.modules] is [is_Some (sys_modules !! name)] *)
  sys_modules : gmap string (pyval pyobj);
  (** [getattr(obj, name)]; [hasattr(obj, name)] is [is_Some] of it *)
  py_getattr : pyval pyobj → string → option (pyval pyobj)
}.

Class Pathlib := {
  path : Type;
  (** [Path(s)] *)
  Path : string → path;
  path_is_absolute : path → bool;
  (** [p / s] *)
  path_join : path → string → path;
  path_exists : path → bool;
  path_suffix : path → string;
  path_with_suffix : path → string → path;
  (** [p.relative_to(root)]; [None] is the [ValueError] *)
  path_relative_to : path → path → option path;
  path_str : path → string;
  path_stem : path → string
}.

(** The extraction/merge wire format as the extraction commands build it:
    [{"msgid": ...}] with ["msgid_plural"] added when the entry has one. *)
Record ExchangeRecord := mkExchange {
  x_msgid : string;
  x_msgid_plural : option string
}.

(** [entry_dict] of the three commands. *)
Definition entry_dict (st : string) (entry : POEntry) : ExchangeRecord :=
  mkExchange st
    (if PyStr.truthy (msgid_plural entry) then Some (msgid_plural entry)
     else None).

(** [any(item.get("msgid") == msgid ... for item in translateables)] *)
Definition already_added (st : string) (translateables : list ExchangeRecord)
    : bool :=
  existsb (λ item, String.eqb (x_msgid item) st) translateables.

(** [if not already_added: translateables.append(entry_dict)] *)
Definition append_if_new (translateables : list ExchangeRecord)
    (d : ExchangeRecord) : list ExchangeRecord :=
  if already_added (x_msgid d) translateables then translateables
  else translateables ++ [d].

Section Extraction.
Context `{Polib} `{Interp} `{Pathlib}.

(** *** Template-source reachability ([html.py]) *)

(** The loop over [entry.occurrences] that sets [has_html_source]. *)
Fixpoint has_html_source (occs : list (string * nat)) : bool :=
  match occs with
  | [] => false
  | (file_path, _) :: rest =>
      if PyStr.endswith file_path ".html" then true
      else has_html_source rest
  end.

(** The body of [for entry in po] in [html.run]. *)
Definition html_step (translateables : list ExchangeRecord)
    (entry : POEntry) : list ExchangeRecord :=
  if translated entry then translateables
  else if negb (has_html_source (occurrences entry)) then translateables
  else append_if_new translateables (entry_dict (msgid entry) entry).

Definition extract_html (po : POFile) : list ExchangeRecord :=
  fold_left html_step po [].

(** *** Module-path reachability ([modules.py]) *)

(** The inner loop [for j in range(i, len(parts))] over the remaining
    segments: [module_imported] is set only when the last segment is
    reached through [hasattr]. *)
Fixpoint walk_attributes (obj : pyval pyobj) (rest : list string) : bool :=
  match rest with
  | [] => false
  | part :: rest' =>
      match py_getattr obj part with
      | Some obj' =>
          match rest' with
          | [] => true
          | _ :: _ => walk_attributes obj' rest'
          end
      | None => false
      end
  end.

(** The loop [for i in range(len(parts), 0, -1)], entered at [i]. *)
Fixpoint parent_package_imported (parts : list string) (i : nat) : bool :=
  match i with
  | O => false
  | S i' =>
      let partial_module := PyStr.join "." (take i parts) in
      match sys_modules !! partial_module with
      | Some obj =>
          if walk_attributes obj (drop i parts) then true
          else parent_package_imported parts i'
      | None => parent_package_imported parts i'
      end
  end.

Definition module_imported (module_name : string) : bool :=
  match sys_modules !! module_name with
  | Some _ => true
  | None =>
      let parts := PyStr.split "." module_name in
      parent_package_imported parts (length parts)
  end.

(** The module name computed for an existing file. *)
Definition module_name_of (mod_root abs_file_path : path) : string :=
  let module_path :=
    if String.eqb (path_suffix abs_file_path) ".py"
    then path_with_suffix abs_file_path ""
    else abs_file_path in
  match path_relative_to module_path mod_root with
  | Some rel_path =>
      PyStr.replace "\" "." (PyStr.replace "/" "." (path_str rel_path))
  | None => path_stem module_path
  end.

(** [abs_file_path] of one occurrence. *)
Definition resolve_occurrence (mod_root : path) (file_path : string) : path :=
  if path_is_absolute (Path file_path) then Path file_path
  else path_join mod_root file_path.

(** The loop [for occurrence in entry.occurrences]: the module name of
    the occurrence at which the loop breaks, or [None] when it runs to
    its end. *)
Fixpoint scan_occurrences (mod_root : path) (occs : list (string * nat))
    : option string :=
  match occs with
  | [] => None
  | (file_path, _) :: rest =>
      let abs_file_path := resolve_occurrence mod_root file_path in
      if negb (path_exists abs_file_path) then scan_occurrences mod_root rest
      else
        let module_name := module_name_of mod_root abs_file_path in
        if module_imported module_name then Some module_name
        else scan_occurrences mod_root rest
  end.

(** The body of [for entry in po] in [modules.run]. *)
Definition modules_step (mod_root : path)
    (translateables : list ExchangeRecord) (entry : POEntry)
    : list ExchangeRecord :=
  if translated entry then translateables
  else
    match scan_occurrences mod_root (occurrences entry) with
    | Some _ => append_if_new translateables (entry_dict (msgid entry) entry)
    | None => translateables
    end.

Definition extract_modules (mod_root : path) (po : POFile)
    : list ExchangeRecord :=
  fold_left (modules_step mod_root) po [].

(** *** Dotted-symbol reachability ([helptexts.py]) *)

(** The loop [for i, part in enumerate(parts)] from index [i], with
    [rest = parts[i:]]: the value of [obj] when the loop ends. *)
Fixpoint walk_key (parts : list string) (i : nat) (rest : list string)
    (obj : pyval pyobj) : pyval pyobj :=
  match rest with
  | [] => obj
  | part :: rest' =>
      let until := PyStr.join "." (take (S i) parts) in
      match sys_modules !! until with
      | Some m => walk_key parts (S i) rest' m
      | None =>
          if is_not_None obj then
            match py_getattr obj part with
            | Some obj' => walk_key parts (S i) rest' obj'
            | None => PyNone
            end
          else PyNone
      end
  end.

(** [obj] after the walk of the key [k]. *)
Definition resolve_key (k : string) : pyval pyobj :=
  let parts := PyStr.split "." k in
  walk_key parts 0 parts PyNone.

(** The body of [for k in keys] in [helptexts.run]; [string'] is
    [str(help_texts[k])]. *)
Definition helptexts_step (po : POFile)
    (translateables : list ExchangeRecord) (item : string * string)
    : list ExchangeRecord :=
  let '(k, string') := item in
  if is_not_None (resolve_key k) then
    match find po string' with
    | Some (_, entry) =>
        if negb (translated entry)
        then append_if_new translateables (entry_dict string' entry)
        else translateables
    | None => translateables
    end
  else translateables.

Definition extract_helptexts (po : POFile)
    (help_texts : list (string * string)) : list ExchangeRecord :=
  fold_left (helptexts_step po) help_texts [].

End Extraction.

(** ** The derived state [translated] of the specification *)

(** Modelled from the spec: [entry.translated()] belongs to the catalog
    I/O collaborator (polib), whose code is not part of the repository.
    "Derived state translated: true iff msgstr is non-empty (singular) or
    all plural slots are non-empty (plural)", an entry being plural when
    it has a [msgid_plural]. *)
Definition translated_spec (e : POEntry) : bool :=
  if PyStr.truthy (msgid_plural e)
  then bool_decide (map_Forall (λ _ s, s ≠ EmptyString) (msgstr_plural e))
  else PyStr.truthy (msgstr e).

Definition spec_polib : Polib := {| translated := translated_spec |}.

(** [entry.translated()] as polib computes it for an entry that is not
    obsolete; polib is not part of the repository's sources.  An entry
    marked fuzzy is never translated; another one is translated when its
    [msgstr] is not empty, or when it has plural strings and none of them
    is empty. *)
Definition polib_translated (e : POEntry) : bool :=
  if fuzzy e then false
  else if PyStr.truthy (msgstr e) then true
  else if bool_decide (msgstr_plural e = ∅) then false
  else bool_decide (map_Forall (λ _ s, s ≠ EmptyString) (msgstr_plural e)).

Definition fuzzy_aware_polib : Polib := {| translated := polib_translated |}.

(** "Indices are contiguous starting at 0": with a plural index the dict
    has every smaller one. *)
Definition plural_contiguous (e : POEntry) : Prop :=
  ∀ k j, is_Some (msgstr_plural e !! k) → j < k → is_Some (msgstr_plural e !! j).

(** ** Fixtures: a host environment given by finite tables

    Used to run the commands on concrete inputs: objects are named by
    strings, [sys.modules] and the attributes of each object are given by
    association lists, and the file system is the list of the files that
    exist, with POSIX paths written as strings. *)

Definition table_getattr (attrs : list (string * string * pyval string))
    (v : pyval string) (name : string) : option (pyval string) :=
  match v with
  | PyNone => None
  | PyObj o =>
      snd <$> List.find (λ a, String.eqb a.1.1 o && String.eqb a.1.2 name) attrs
  end.

Definition table_interp (modules : list (string * pyval string))
    (attrs : list (string * string * pyval string)) : Interp :=
  {| pyobj := string;
     sys_modules := list_to_map modules;
     py_getattr := table_getattr attrs |}.

Definition posix_suffix (p : string) : string :=
  String.substring (String.length p - suffix_length p) (suffix_length p) p.

Definition posix_stem (p : string) : string :=
  string_of_list_ascii
    (rev (drop (suffix_length p) (name_rev (rev (list_ascii_of_string p))))).

Definition posix_relative_to (p root : string) : option string :=
  let r := root +:+ "/" in
  if String.prefix r p
  then Some (String.substring (String.length r)
                              (String.length p - String.length r) p)
  else None.

Definition table_pathlib (files : list string) : Pathlib :=
  {| path := string;
     Path := λ s, s;
     path_is_absolute := String.prefix "/";
     path_join := λ root s, root +:+ "/" +:+ s;
     path_exists := λ p, bool_decide (p ∈ files);
     path_suffix := posix_suffix;
     path_with_suffix := with_suffix;
     path_relative_to := posix_relative_to;
     path_str := λ p, p;
     path_stem := posix_stem |}.

(** ** Predicates the properties are stated with *)

(** A record the merge loop turns into an update of the entry [entry]
    found for its msgid, in each of the three forms: the value is not
    empty and differs from what the entry holds. *)
Definition record_updates (entry : POEntry) (v : translation_data) : Prop :=
  match v with
  | TStr s | TDict (Some (MsgstrStr s)) =>
      is_empty_translation s = false ∧ singular_differs entry s = true
  | TDict (Some (MsgstrList l)) =>
      PyStr.truthy (msgid_plural entry) = true
      ∧ any_nonempty l = true
      ∧ needs_update_from (msgstr_plural entry) 0 l = Some true
  | _ => False
  end.

(** In the catalog [po] the record [r] is a no-op: the loop body returns
    the catalog as it is and does not count an update. *)
Definition record_noop (po : POFile) (r : string * translation_data) : Prop :=
  ∀ c, ∃ c', merge_record po c r = Some (po, c')
             ∧ updated_count c' = updated_count c.


(** The dotted-symbol walk in the words of the specification: at each
    prefix the whole prefix is first resolved directly against
    [sys.modules] and, on success, becomes the current object; otherwise
    the segment is looked up as an attribute of the object resolved so
    far; the walk fails at the first segment found neither way.  The
    current object is [None] while nothing is resolved, and the result is
    [Some] object exactly when every segment was resolved. *)
Fixpoint walk_key_spec `{Interp} (parts : list string) (i : nat)
    (rest : list string) (cur : option (pyval pyobj))
    : option (pyval pyobj) :=
  match rest with
  | [] => cur
  | part :: rest' =>
      match sys_modules !! PyStr.join "." (take (S i) parts) with
      | Some m => walk_key_spec parts (S i) rest' (Some m)
      | None =>
          match cur with
          | Some obj =>
              match py_getattr obj part with
              | Some obj' => walk_key_spec parts (S i) rest' (Some obj')
              | None => None
              end
          | None => None
          end
      end
  end.

Definition key_resolves_spec `{Interp} (k : string) : bool :=
  let parts := PyStr.split "." k in
  bool_decide (is_Some (walk_key_spec parts 0 parts None)).

(** The sibling path the specification states for a compiled catalog, for
    a textual catalog path that ends in [.po]: the path with this
    extension replaced by [.mo]. *)
Definition sibling_mo_path (po_file : string) : string :=
  String.substring 0 (String.length po_file - 3) po_file +:+ ".mo".

(** A value that translates the entry [e]: every string it carries is
    neither empty nor all-whitespace; it is a single string, in the legacy
    or the structured form, when [e] has no [msgid_plural], and a list
    that is not empty, with a string for every plural index of [e], when
    it has one. *)
Definition translates (e : POEntry) (v : translation_data) : Prop :=
  if PyStr.truthy (msgid_plural e)
  then ∃ l, v = TDict (Some (MsgstrList l))
            ∧ l ≠ []
            ∧ Forall (λ s, is_empty_translation s = false) l
            ∧ ∀ k, is_Some (msgstr_plural e !! k) → k < length l
  else ∃ s, (v = TStr s ∨ v = TDict (Some (MsgstrStr s)))
            ∧ is_empty_translation s = false.

(** A value that differs from what the entry [e] holds: its string is not
    the [msgstr] of [e], or one of the strings of its list is not the
    plural string of [e] at the same index. *)
Definition differs_from (e : POEntry) (v : translation_data) : Prop :=
  match v with
  | TStr s | TDict (Some (MsgstrStr s)) => msgstr e ≠ s
  | TDict (Some (MsgstrList l)) =>
      ∃ j t, l !! j = Some t ∧ msgstr_plural e !! j ≠ Some t
  | _ => False
  end.

(** An entry whose translation is filled in: its [msgstr] is not empty
    when it has no [msgid_plural]; it has plural strings and none of them
    is empty when it has one. *)
Definition filled (e : POEntry) : Prop :=
  if PyStr.truthy (msgid_plural e)
  then msgstr_plural e ≠ ∅
       ∧ map_Forall (λ _ s, s ≠ EmptyString) (msgstr_plural e)
  else msgstr e ≠ EmptyString.

(** The catalog [pk] reached from [po] after the records for the msgids
    in [done]: the entries keep their place, their msgid, plural msgid and
    occurrences; the ones a record was applied to are translated and the
    others are as they were. *)
Definition merged_from `{Polib} (done : list string) (po pk : POFile) : Prop :=
  Forall2 (λ e ek,
             msgid ek = msgid e
             ∧ msgid_plural ek = msgid_plural e
             ∧ occurrences ek = occurrences e
             ∧ (msgid e ∈ done → translated ek = true)
             ∧ (msgid e ∉ done → ek = e)) po pk.

(** ** Relations between a catalog before and after a merge *)

(** The entry [e'] is the entry [e] with, at most, its translation fields
    changed. *)
Definition same_source (e e' : POEntry) : Prop :=
  msgid e' = msgid e
  ∧ msgid_plural e' = msgid_plural e
  ∧ occurrences e' = occurrences e.

(** A value for which the loop reaches the not-found test: a structured
    object, or a legacy string that passes the emptiness test. *)
Definition looks_up (v : translation_data) : bool :=
  match v with
  | TStr s => negb (is_empty_translation s)
  | TDict _ => true
  | TOther => false
  end.

(** ** Loading the translation files ([update.py], lines 19-33) *)

(** A Python dict with string keys, as the list of its items in insertion
    order.  [d[k] = v]: the value of an existing key is replaced in its
    place, a new key is added at the end. *)
Fixpoint dict_setitem {V} (d : list (string * V)) (k : string) (v : V)
    : list (string * V) :=
  match d with
  | [] => [(k, v)]
  | (k', v') :: d' =>
      if String.eqb k' k then (k', v) :: d'
      else (k', v') :: dict_setitem d' k v
  end.

(** [d.update(data)] *)
Definition dict_update {V} (d data : list (string * V)) : list (string * V) :=
  fold_left (λ d kv, dict_setitem d kv.1 kv.2) data d.

(** [d.get(k)] *)
Fixpoint dict_get {V} (d : list (string * V)) (k : string) : option V :=
  match d with
  | [] => None
  | (k', v') :: d' => if String.eqb k' k then Some v' else dict_get d' k
  end.

(** The loop [for json_file in args.translations_files].  [read_json]
    stands for the file system and [json.load]: [None] when the path does
    not exist, the items of the JSON object otherwise. *)
Definition load_translations
    (read_json : string → option (list (string * translation_data)))
    (translations_files : list string) : list (string * translation_data) :=
  fold_left
    (λ translations json_file,
       match read_json json_file with
       | Some data => dict_update translations data
       | None => translations
       end)
    translations_files [].

(** [update.run] from the loaded catalog to the catalog it saves and the
    counters of its summary. *)
Definition update_run
    (read_json : string → option (list (string * translation_data)))
    (translations_files : list string) (po : POFile)
    : option (POFile * counters) :=
  merge po (load_translations read_json translations_files).

(** What a merge can make of an entry: the same entry, or an entry from
    the same source that is not fuzzy and whose [msgstr] is the old one or
    a string that is not blank. *)
Definition merged_entry (e e' : POEntry) : Prop :=
  same_source e e'
  ∧ (e' = e
     ∨ (fuzzy e' = false
        ∧ (msgstr e' = msgstr e ∨ is_empty_translation (msgstr e') = false))).

Global Instance POEntry_eq_dec : EqDecision POEntry.
Proof. solve_decision. Defined.

(** No entry of the catalog has the msgid [m]. *)
Definition absent (po : POFile) (m : string) : bool :=
  match find po m with
  | None => true
  | Some _ => false
  end.

(** The positions at which two catalogs differ. *)
Definition changed_positions (po po' : POFile) : list nat :=
  filter (λ i, po !! i ≠ po' !! i) (seq 0 (length po)).

(** The value a list of translation files gives for the key [k], the
    files taken from the last to the first: the last binding of [k] in
    the last file that exists and has the key. *)
Fixpoint last_binding
    (read_json : string → option (list (string * translation_data)))
    (files_rev : list string) (k : string) : option translation_data :=
  match files_rev with
  | [] => None
  | json_file :: earlier =>
      match read_json json_file with
      | Some data =>
          match dict_get (rev data) k with
          | Some v => Some v
          | None => last_binding read_json earlier k
          end
      | None => last_binding read_json earlier k
      end
  end.

(** ** Predicates on entries and objects for the extraction commands *)

(** The object reached from [obj] through the attributes [rest], one
    [getattr] after the other; [None] when one of them is missing. *)
Fixpoint attr_chain `{Interp} (obj : pyval pyobj) (rest : list string)
    : option (pyval pyobj) :=
  match rest with
  | [] => Some obj
  | part :: rest' =>
      match py_getattr obj part with
      | Some obj' => attr_chain obj' rest'
      | None => None
      end
  end.

(** An entry the template command takes: not translated, with an
    occurrence in a template. *)
Definition html_candidate `{Polib} (e : POEntry) : bool :=
  negb (translated e) && has_html_source (occurrences e).

(** An occurrence that makes an entry reachable for the module command:
    its file exists and its module is imported. *)
Definition occurrence_imported `{Interp} `{Pathlib} (mod_root : path)
    (file_path : string) : bool :=
  path_exists (resolve_occurrence mod_root file_path)
  && module_imported
       (module_name_of mod_root (resolve_occurrence mod_root file_path)).

(** An entry the module command takes: not translated, with such an
    occurrence. *)
Definition modules_candidate `{Polib} `{Interp} `{Pathlib} (mod_root : path)
    (e : POEntry) : bool :=
  negb (translated e)
  && existsb (λ occ, occurrence_imported mod_root occ.1) (occurrences e).

(** ** The translate command ([translate.py]): batches and code fences *)

(** [range(0, n, batch_size)]: [None] is the [ValueError] of a zero
    step; a negative step gives no start at all. *)
Definition batch_starts (n : nat) (batch_size : Z) : option (list nat) :=
  if (batch_size =? 0)%Z then None
  else if (batch_size <? 0)%Z then Some []
  else
    let step := Z.to_nat batch_size in
    Some ((λ j, j * step) <$> seq 0 ((n + step - 1) / step)).

(** The batches of the loop [for i in range(0, len(lines), batch_size)],
    each [lines[i:i+batch_size]]. *)
Definition batches {A} (lines : list A) (batch_size : Z)
    : option (list (list A)) :=
  match batch_starts (length lines) batch_size with
  | None => None
  | Some starts =>
      Some ((λ i, take (Z.to_nat batch_size) (drop i lines)) <$> starts)
  end.

(** [s.split(sep)] for a non-empty [sep]: the pieces between the
    occurrences of [sep], found from the left without overlap.  [skip]
    counts the characters of a matched occurrence still to be dropped. *)
Fixpoint py_split_from (sep : string) (skip : nat) (s : string) : list string :=
  match s with
  | EmptyString => [EmptyString]
  | String c s' =>
      match skip with
      | S k => py_split_from sep k s'
      | O =>
          if String.prefix sep s
          then EmptyString :: py_split_from sep (String.length sep - 1) s'
          else match py_split_from sep 0 s' with
               | w :: ws => String c w :: ws
               | [] => [String c EmptyString]
               end
      end
  end.

Definition py_split (sep s : string) : list string := py_split_from sep 0 s.

(** The text handed to [json.loads], from [response.text]: stripped, and
    when it starts with a code fence, the part between the first two
    fences without a leading [json], stripped again.  [None] is the
    [IndexError] of [split(...)[1]]. *)
Definition response_json_text (text : string) : option string :=
  let response_text := PyStr.strip text in
  if String.prefix "```" response_text then
    match py_split "```" response_text !! 1 with
    | None => None
    | Some response_text =>
        let response_text :=
          if String.prefix "json" response_text
          then String.substring 4 (String.length response_text - 4) response_text
          else response_text in
        Some (PyStr.strip response_text)
    end
  else Some response_text.

(** ** The loop body of the merge, in two steps

    What one record does, read off the entry found for its msgid, and
    its effect on the catalog and the counters. *)

Inductive outcome :=
| Unchanged
| Updated (i : nat) (e' : POEntry)
| SkippedRecord
| NotFoundRecord.

Definition record_outcome (found : option (nat * POEntry))
    (v : translation_data) : option outcome :=
  match v with
  | TStr s =>
      if is_empty_translation s then Some SkippedRecord
      else
        match found with
        | Some (i, entry) =>
            if singular_differs entry s
            then Some (Updated i (apply_singular entry s))
            else Some Unchanged
        | None => Some NotFoundRecord
        end
  | TDict field =>
      match found with
      | None => Some NotFoundRecord
      | Some (i, entry) =>
          match field with
          | Some (MsgstrList l) =>
              if negb (PyStr.truthy (msgid_plural entry))
              then Some SkippedRecord
              else if negb (any_nonempty l) then Some SkippedRecord
              else
                match needs_update_from (msgstr_plural entry) 0 l with
                | None => None
                | Some true => Some (Updated i (apply_plural entry l))
                | Some false => Some Unchanged
                end
          | Some (MsgstrStr s) =>
              if is_empty_translation s then Some SkippedRecord
              else if singular_differs entry s
              then Some (Updated i (apply_singular entry s))
              else Some Unchanged
          | Some MsgstrOther => Some Unchanged
          | None => Some SkippedRecord
          end
      end
  | TOther => Some Unchanged
  end.

Definition apply_outcome (po : POFile) (c : counters) (o : outcome)
    : POFile * counters :=
  match o with
  | Unchanged => (po, c)
  | Updated i e' => (<[i := e']> po, incr_updated c)
  | SkippedRecord => (po, incr_skipped c)
  | NotFoundRecord => (po, incr_not_found c)
  end.

(** * Properties *)

(** ** Merge: lookups and the loop *)

Lemma find_None po m : find po m = None ↔ ∀ e, e ∈ po → msgid e ≠ m.
Proof.
  unfold find. rewrite list_find_None, Forall_forall. done.
Qed.

Lemma find_Some po m i e :
  find po m = Some (i, e) → po !! i = Some e ∧ msgid e = m.
Proof.
  unfold find. intros (? & ? & _)%list_find_Some. done.
Qed.

Lemma merge_loop_cons po c r rest :
  merge_loop po c (r :: rest) =
  match merge_record po c r with
  | None => None
  | Some (po', c') => merge_loop po' c' rest
  end.
Proof. reflexivity. Qed.

(** ** Not-found accounting *)

(** C1, as the code has it.  A record whose msgid matches no catalog
    entry, and whose value is a structured object or a legacy string that
    is neither empty nor all-whitespace, increments [not_found] by exactly
    one, leaves the catalog as it is, and the loop goes on with the
    remaining records. *)
Theorem merge_not_found po c m rest :
  (∀ e, e ∈ po → msgid e ≠ m) →
  (∀ field, merge_loop po c ((m, TDict field) :: rest)
            = merge_loop po (incr_not_found c) rest)
  ∧ (∀ s, is_empty_translation s = false →
          merge_loop po c ((m, TStr s) :: rest)
          = merge_loop po (incr_not_found c) rest).
Proof.
  intros Hm%find_None. split.
  - intros field. rewrite merge_loop_cons. simpl. by rewrite Hm.
  - intros s Hs. rewrite merge_loop_cons. simpl. by rewrite Hs, Hm.
Qed.

Lemma merge_not_found_witness :
  let po := [mkPOEntry "Save" "" "" ∅ [("a.py", 3)] false] in
  merge_loop po zero_counters
    [("Open", TDict (Some (MsgstrStr ""))); ("Close", TStr "Zu")]
  = Some (po, mkCounters 0 0 2).
Proof.
  intros po.
  pose proof (merge_not_found po zero_counters "Open" [("Close", TStr "Zu")])
    as [Hd _].
  { intros e He%list_elem_of_singleton. by subst e. }
  rewrite Hd.
  pose proof (merge_not_found po (incr_not_found zero_counters) "Close" [])
    as [_ Hs].
  { intros e He%list_elem_of_singleton. by subst e. }
  rewrite Hs; reflexivity.
Defined.

(** C1 as stated fails for a legacy string that is empty or all
    whitespace: the emptiness test of the legacy branch comes before the
    lookup, so the record is counted as skipped and [not_found] stays. *)
Lemma merge_not_found_blank_legacy :
  let po := [mkPOEntry "Save" "" "" ∅ [] false] in
  (∀ e, e ∈ po → msgid e ≠ "ghost")
  ∧ merge po [("ghost", TStr " ")] = Some (po, mkCounters 0 1 0)
  ∧ merge po [("ghost", TStr "")] = Some (po, mkCounters 0 1 0).
Proof.
  simpl. split; [|split; reflexivity].
  intros e He%list_elem_of_singleton. by subst e.
Qed.

(** ** Plural records need a plural entry *)

(** C5.  A record carrying a list of plural translations, applied to an
    entry without [msgid_plural], adds one to [skipped], leaves [updated]
    and [not_found] as they are, leaves the catalog as it is, and the loop
    goes on with the remaining records. *)
Theorem merge_plural_mismatch po c m l i entry rest :
  find po m = Some (i, entry) →
  msgid_plural entry = "" →
  merge_record po c (m, TDict (Some (MsgstrList l))) = Some (po, incr_skipped c)
  ∧ updated_count (incr_skipped c) = updated_count c
  ∧ skipped_count (incr_skipped c) = S (skipped_count c)
  ∧ not_found_count (incr_skipped c) = not_found_count c
  ∧ merge_loop po c ((m, TDict (Some (MsgstrList l))) :: rest)
    = merge_loop po (incr_skipped c) rest.
Proof.
  intros Hf Hp.
  assert (merge_record po c (m, TDict (Some (MsgstrList l)))
          = Some (po, incr_skipped c)) as Hr.
  { simpl. by rewrite Hf, Hp. }
  split_and!; try done.
  by rewrite merge_loop_cons, Hr.
Qed.

Lemma merge_plural_mismatch_witness :
  let e := mkPOEntry "Save" "" "" ∅ [("a.py", 3)] true in
  merge_loop [e] zero_counters
    [("Save", TDict (Some (MsgstrList ["a"; "b"]))); ("Save", TStr "Speichern")]
  = Some ([mkPOEntry "Save" "" "Speichern" ∅ [("a.py", 3)] false],
          mkCounters 1 1 0).
Proof.
  intros e.
  pose proof (merge_plural_mismatch [e] zero_counters "Save" ["a"; "b"] 0 e
                [("Save", TStr "Speichern")] eq_refl eq_refl)
    as (_ & _ & _ & _ & Hloop).
  rewrite Hloop. reflexivity.
Defined.

(** ** Counter accounting *)

Lemma merge_record_counters po c r po' c' :
  merge_record po c r = Some (po', c') →
  c' = c ∨ c' = incr_updated c ∨ c' = incr_skipped c ∨ c' = incr_not_found c.
Proof.
  destruct r as [m v]. unfold merge_record.
  repeat case_match; intros; simplify_eq; auto.
Qed.

(** C10.  One record changes at most one of the three counters, and by
    one; after a merge their sum is at most the number of records. *)
Theorem merge_counter_accounting :
  (∀ po c r po' c',
      merge_record po c r = Some (po', c') →
      c' = c ∨ c' = incr_updated c ∨ c' = incr_skipped c
      ∨ c' = incr_not_found c)
  ∧ (∀ po translations po' c',
      merge po translations = Some (po', c') →
      total_count c' ≤ length translations).
Proof.
  split; [apply merge_record_counters|].
  intros po translations po' c'. unfold merge.
  assert (∀ c, merge_loop po c translations = Some (po', c') →
               total_count c' ≤ total_count c + length translations) as Hgen.
  { revert po. induction translations as [|r rest IH]; intros po c Hm.
    - simpl in Hm. simplify_eq. lia.
    - rewrite merge_loop_cons in Hm.
      destruct (merge_record po c r) as [[po1 c1]|] eqn:Hr; [|done].
      apply IH in Hm.
      apply merge_record_counters in Hr.
      destruct Hr as [-> | [-> | [-> | ->]]]; unfold total_count in *; simpl in *; lia. }
  intros Hm. apply Hgen in Hm. unfold total_count in *. simpl in *. lia.
Qed.

Lemma merge_counter_accounting_witness :
  total_count (mkCounters 1 1 1) ≤ 4.
Proof.
  pose (e := mkPOEntry "Save" "" "" ∅ [("a.py", 3)] true).
  apply (proj2 merge_counter_accounting [e]
           [("Save", TStr "Speichern"); ("Open", TStr " ");
            ("Close", TDict None); ("Save", TDict (Some (MsgstrStr "Speichern")))]
           [mkPOEntry "Save" "" "Speichern" ∅ [("a.py", 3)] false]).
  reflexivity.
Defined.
(** ** Idempotence *)

Lemma nonempty_translation_truthy s :
  is_empty_translation s = false → PyStr.truthy s = true.
Proof.
  unfold is_empty_translation. destruct (PyStr.truthy s); [done|]. simpl. done.
Qed.

Lemma singular_differs_applied e s :
  PyStr.truthy s = true → singular_differs (apply_singular e s) s = false.
Proof.
  intros Hs. unfold singular_differs. simpl. rewrite Hs. simpl.
  by rewrite String.eqb_refl.
Qed.

Lemma assign_from_lookup d idx l k :
  assign_from d idx l !! k =
  if decide (idx ≤ k < idx + length l) then l !! (k - idx) else d !! k.
Proof.
  revert d idx. induction l as [|t l IH]; intros d idx; simpl.
  - case_decide; [lia | done].
  - rewrite IH. repeat case_decide; try lia.
    + destruct (decide (k = idx)) as [->|]; [lia|].
      replace (k - idx) with (S (k - S idx)) by lia. done.
    + assert (k = idx) as -> by lia. rewrite Nat.sub_diag. simpl.
      apply lookup_insert_eq.
    + rewrite lookup_insert_ne by lia. done.
Qed.

Lemma size_ge_of_prefix_keys (d : gmap nat string) n :
  (∀ k, k < n → is_Some (d !! k)) → n ≤ size d.
Proof.
  revert d. induction n as [|n IH]; intros d Hd; [lia|].
  destruct (Hd n) as [x Hx]; [lia|].
  rewrite <- (insert_delete_id d n x Hx).
  rewrite map_size_insert_None by apply lookup_delete_eq.
  apply le_n_S, IH. intros k Hk.
  rewrite lookup_delete_ne by lia. apply Hd. lia.
Qed.

Lemma needs_update_settled d idx l :
  (∀ j t, l !! j = Some t → d !! (idx + j) = Some t) →
  idx + length l ≤ size d →
  needs_update_from d idx l = Some false.
Proof.
  revert idx. induction l as [|t l IH]; intros idx Hl Hsz; [done|].
  simpl in *.
  destruct (Nat.ltb_spec idx (size d)); [|lia].
  specialize (Hl 0 t eq_refl) as H0. rewrite Nat.add_0_r in H0.
  rewrite H0, String.eqb_refl. apply IH; [|lia].
  intros j t' Hj. replace (S idx + j) with (idx + S j) by lia.
  by apply Hl.
Qed.

Lemma needs_update_assigned d l :
  needs_update_from (assign_from d 0 l) 0 l = Some false.
Proof.
  apply needs_update_settled.
  - intros j t Hj. rewrite assign_from_lookup.
    apply lookup_lt_Some in Hj as Hlt.
    case_decide; [|lia]. by rewrite Nat.sub_0_r.
  - simpl. apply size_ge_of_prefix_keys. intros k Hk.
    rewrite assign_from_lookup. case_decide; [|lia].
    apply lookup_lt_is_Some. lia.
Qed.

Lemma find_insert_same po m i e e' :
  find po m = Some (i, e) → msgid e' = m →
  find (<[i := e']> po) m = Some (i, e').
Proof.
  unfold find. intros (Hi & He & Hlt)%list_find_Some He'.
  apply list_find_Some. split_and!; [|done|].
  - apply list_lookup_insert_eq. by eapply lookup_lt_Some.
  - intros j y Hj Hji. rewrite list_lookup_insert_ne in Hj by lia. eauto.
Qed.

Lemma find_insert_other po m i e0 e' :
  po !! i = Some e0 → msgid e0 ≠ m → msgid e' ≠ m →
  find (<[i := e']> po) m = find po m.
Proof.
  intros Hi H0 He'. unfold find.
  destruct (list_find (λ e, msgid e = m) po) as [[j x]|] eqn:Hf.
  - apply list_find_Some in Hf as (Hj & Hx & Hlt).
    assert (j ≠ i) by (intros ->; simplify_eq).
    apply list_find_Some. split_and!; [|done|].
    + by rewrite list_lookup_insert_ne.
    + intros k y Hk Hkj.
      destruct (decide (k = i)) as [->|].
      * rewrite list_lookup_insert_eq in Hk by (by eapply lookup_lt_Some).
        by simplify_eq.
      * rewrite list_lookup_insert_ne in Hk by done. eauto.
  - apply list_find_None, Forall_forall. intros y Hy.
    apply list_find_None in Hf. rewrite Forall_forall in Hf.
    apply list_elem_of_lookup in Hy as [k Hk].
    destruct (decide (k = i)) as [->|].
    + rewrite list_lookup_insert_eq in Hk by (by eapply lookup_lt_Some).
      by simplify_eq.
    + rewrite list_lookup_insert_ne in Hk by done.
      apply Hf. by eapply list_elem_of_lookup_2.
Qed.

Lemma merge_record_settles po c r po' c' :
  merge_record po c r = Some (po', c') → record_noop po' r.
Proof.
  destruct r as [m v]. intros Hr c0. unfold merge_record in Hr.
  destruct v as [s|[[l|s|]|]|].
  - destruct (is_empty_translation s) eqn:Hs.
    { simplify_eq. simpl. rewrite Hs. eauto. }
    destruct (find po m) as [[i e]|] eqn:Hf.
    + pose proof (find_Some _ _ _ _ Hf) as [_ Hm].
      destruct (singular_differs e s) eqn:Hd; simplify_eq.
      * simpl. rewrite Hs.
        rewrite (find_insert_same _ _ _ _ (apply_singular e s) Hf eq_refl).
        rewrite singular_differs_applied by by apply nonempty_translation_truthy.
        eauto.
      * simpl. rewrite Hs, Hf, Hd. eauto.
    + simplify_eq. simpl. rewrite Hs, Hf. eauto.
  - destruct (find po m) as [[i e]|] eqn:Hf.
    2:{ simplify_eq. simpl. rewrite Hf. eauto. }
    pose proof (find_Some _ _ _ _ Hf) as [_ Hm].
    destruct (negb (PyStr.truthy (msgid_plural e))) eqn:Hp.
    { simplify_eq. simpl. rewrite Hf, Hp. eauto. }
    destruct (negb (any_nonempty l)) eqn:Ha.
    { simplify_eq. simpl. rewrite Hf, Hp, Ha. eauto. }
    destruct (needs_update_from (msgstr_plural e) 0 l) as [[]|] eqn:Hn;
      simplify_eq.
    + simpl.
      rewrite (find_insert_same _ _ _ _ (apply_plural e l) Hf eq_refl).
      simpl. rewrite Hp, Ha, needs_update_assigned. eauto.
    + simpl. rewrite Hf, Hp, Ha, Hn. eauto.
  - destruct (find po m) as [[i e]|] eqn:Hf.
    2:{ simplify_eq. simpl. rewrite Hf. eauto. }
    pose proof (find_Some _ _ _ _ Hf) as [_ Hm].
    destruct (is_empty_translation s) eqn:Hs.
    { simplify_eq. simpl. rewrite Hf, Hs. eauto. }
    destruct (singular_differs e s) eqn:Hd; simplify_eq.
    + simpl.
      rewrite (find_insert_same _ _ _ _ (apply_singular e s) Hf eq_refl).
      rewrite Hs.
      rewrite singular_differs_applied by by apply nonempty_translation_truthy.
      eauto.
    + simpl. rewrite Hf, Hs, Hd. eauto.
  - destruct (find po m) as [[i e]|] eqn:Hf; simplify_eq; simpl; rewrite Hf; eauto.
  - destruct (find po m) as [[i e]|] eqn:Hf; simplify_eq; simpl; rewrite Hf; eauto.
  - simplify_eq. simpl. eauto.
Qed.

(** A record for another msgid leaves the lookup of [m] as it was. *)
Lemma merge_record_find_other po c m' v' po' c' m :
  m' ≠ m →
  merge_record po c (m', v') = Some (po', c') →
  find po' m = find po m.
Proof.
  intros Hne Hr. unfold merge_record in Hr.
  destruct (find po m') as [[i e]|] eqn:Hf.
  - pose proof (find_Some _ _ _ _ Hf) as [Hi Hm].
    assert (msgid e ≠ m) by congruence.
    repeat case_match; simplify_eq; try done;
      by eapply find_insert_other.
  - repeat case_match; by simplify_eq.
Qed.

Lemma merge_record_find_ext po po' c m v c1 :
  find po' m = find po m →
  merge_record po c (m, v) = Some (po, c1) →
  updated_count c1 = updated_count c →
  merge_record po' c (m, v) = Some (po', c1).
Proof.
  intros Hf Hr Hu. unfold merge_record in *. rewrite Hf.
  repeat case_match; simplify_eq; try done; simpl in Hu; lia.
Qed.

Lemma record_noop_preserved po c r r' po' c' :
  r'.1 ≠ r.1 →
  merge_record po c r' = Some (po', c') →
  record_noop po r → record_noop po' r.
Proof.
  destruct r as [m v], r' as [m' v']. simpl.
  intros Hne Hr Hnoop c0.
  destruct (Hnoop c0) as (c1 & H1 & Hu).
  exists c1. split; [|done].
  eapply merge_record_find_ext; [|done..].
  by eapply merge_record_find_other.
Qed.

Lemma record_noop_loop po c recs po' c' r :
  r.1 ∉ recs.*1 →
  merge_loop po c recs = Some (po', c') →
  record_noop po r → record_noop po' r.
Proof.
  revert po c. induction recs as [|r' recs IH]; intros po c Hnin Hm Hn.
  - simpl in Hm. by simplify_eq.
  - rewrite merge_loop_cons in Hm.
    destruct (merge_record po c r') as [[po1 c1]|] eqn:Hr; [|done].
    rewrite fmap_cons, not_elem_of_cons in Hnin. destruct Hnin as [Hne Hnin].
    eapply IH; [done..|].
    eapply record_noop_preserved; [|done..]. congruence.
Qed.

Lemma merge_loop_settles po c recs po' c' :
  NoDup recs.*1 →
  merge_loop po c recs = Some (po', c') →
  Forall (record_noop po') recs.
Proof.
  revert po c. induction recs as [|r recs IH]; intros po c Hnd Hm; [done|].
  rewrite merge_loop_cons in Hm.
  destruct (merge_record po c r) as [[po1 c1]|] eqn:Hr; [|done].
  rewrite fmap_cons in Hnd. apply NoDup_cons in Hnd as [Hnin Hnd].
  constructor; [|by eapply IH].
  eapply record_noop_loop; [done..|]. by eapply merge_record_settles.
Qed.

Lemma merge_loop_noops po c recs :
  Forall (record_noop po) recs →
  ∃ c', merge_loop po c recs = Some (po, c')
        ∧ updated_count c' = updated_count c.
Proof.
  intros Hall. revert c. induction Hall as [|r recs Hr _ IH]; intros c.
  - by exists c.
  - destruct (Hr c) as (c1 & H1 & Hu1). destruct (IH c1) as (c2 & H2 & Hu2).
    exists c2. rewrite merge_loop_cons, H1. split; [done | congruence].
Qed.

(** C3.  Merging is idempotent.  For every catalog and every set of
    records (a mapping, so no msgid occurs twice), a second identical
    merge call counts no update and leaves the catalog as the first call
    left it.  A record that differs from what its entry holds, in the
    legacy-string, structured-singular or structured-plural form, counts
    [updated == 1] on the first call and [updated == 0] on the second, and
    the catalog is the same after both calls. *)
Theorem merge_idempotent :
  (∀ po translations po1 c1,
      NoDup translations.*1 →
      merge po translations = Some (po1, c1) →
      ∃ c2, merge po1 translations = Some (po1, c2) ∧ updated_count c2 = 0)
  ∧ (∀ po m v i entry,
      find po m = Some (i, entry) →
      record_updates entry v →
      ∃ po1, merge po [(m, v)] = Some (po1, mkCounters 1 0 0)
             ∧ merge po1 [(m, v)] = Some (po1, zero_counters)).
Proof.
  split.
  - intros po translations po1 c1 Hnd Hm. unfold merge in *.
    apply merge_loop_settles in Hm; [|done].
    destruct (merge_loop_noops po1 zero_counters _ Hm) as (c2 & H2 & Hu).
    by exists c2.
  - intros po m v i entry Hf Hup.
    pose proof (find_Some _ _ _ _ Hf) as [_ Hm].
    destruct v as [s|[[l|s|]|]|]; simpl in Hup; try done.
    + destruct Hup as [Hs Hd].
      exists (<[i := apply_singular entry s]> po).
      unfold merge, merge_loop, merge_record.
      rewrite (find_insert_same _ _ _ _ (apply_singular entry s) Hf Hm).
      rewrite Hf, Hs, Hd.
      by rewrite singular_differs_applied
        by by apply nonempty_translation_truthy.
    + destruct Hup as (Hp & Ha & Hn).
      exists (<[i := apply_plural entry l]> po).
      unfold merge, merge_loop, merge_record.
      rewrite (find_insert_same _ _ _ _ (apply_plural entry l) Hf Hm).
      rewrite Hf.
      cbn [apply_plural set_fuzzy set_msgstr_plural msgid_plural msgstr_plural].
      by rewrite Hp, Ha, Hn, needs_update_assigned.
    + destruct Hup as [Hs Hd].
      exists (<[i := apply_singular entry s]> po).
      unfold merge, merge_loop, merge_record.
      rewrite (find_insert_same _ _ _ _ (apply_singular entry s) Hf Hm).
      rewrite Hf, Hs, Hd.
      by rewrite singular_differs_applied
        by by apply nonempty_translation_truthy.
Qed.

Lemma merge_idempotent_witness :
  let e1 := mkPOEntry "Save" "" "" ∅ [("a.py", 3)] true in
  let e2 := mkPOEntry "%d file" "%d files" "" {[0 := ""; 1 := ""]} [] false in
  let recs := [("Save", TStr "Speichern");
               ("%d file", TDict (Some (MsgstrList ["%d Datei"; "%d Dateien"])));
               ("Open", TDict (Some (MsgstrStr "Offnen")))] in
  (∃ po1 c2, merge [e1; e2] recs = Some (po1, mkCounters 2 0 1)
             ∧ merge po1 recs = Some (po1, c2) ∧ updated_count c2 = 0)
  ∧ (∃ po1, merge [e1; e2] [("%d file", TDict (Some (MsgstrList ["%d Datei"])))]
            = Some (po1, mkCounters 1 0 0)
            ∧ merge po1 [("%d file", TDict (Some (MsgstrList ["%d Datei"])))]
              = Some (po1, zero_counters)).
Proof.
  intros e1 e2 recs. split.
  - destruct (merge [e1; e2] recs) as [[po1 c1]|] eqn:Hm; [|by vm_compute in Hm].
    destruct (proj1 merge_idempotent [e1; e2] recs po1 c1) as (c2 & H2 & Hu).
    + apply (bool_decide_unpack _). vm_compute. exact I.
    + exact Hm.
    + exists po1, c2. vm_compute in Hm. by simplify_eq.
  - apply (proj2 merge_idempotent [e1; e2] "%d file"
             (TDict (Some (MsgstrList ["%d Datei"]))) 1 e2); [reflexivity|].
    simpl. split_and!; reflexivity.
Defined.

(** ** Extraction: the shared append step *)

Lemma fold_left_invariant {A B} (P : A → Prop) (f : A → B → A) l a :
  P a → (∀ a b, b ∈ l → P a → P (f a b)) → P (fold_left f l a).
Proof.
  revert a. induction l as [|b l IH]; intros a Ha Hstep; [done|].
  simpl. apply IH.
  - apply Hstep; [left | done].
  - intros a' b' Hb'. apply Hstep. by right.
Qed.

Lemma already_added_elem st ts :
  already_added st ts = true ↔ st ∈ x_msgid <$> ts.
Proof.
  unfold already_added. rewrite existsb_exists, list_elem_of_fmap.
  split.
  - intros (r & Hr%list_elem_of_In & Heq%String.eqb_eq). eauto.
  - intros (r & -> & Hr%list_elem_of_In). exists r. by rewrite String.eqb_refl.
Qed.

Lemma append_if_new_old ts d :
  x_msgid d ∈ x_msgid <$> ts → append_if_new ts d = ts.
Proof.
  intros Hd%already_added_elem. unfold append_if_new. by rewrite Hd.
Qed.

Lemma append_if_new_prefix ts d : ts `prefix_of` append_if_new ts d.
Proof.
  unfold append_if_new. destruct (already_added _ _); [done|].
  by apply prefix_app_r.
Qed.

Lemma append_if_new_NoDup ts d :
  NoDup (x_msgid <$> ts) → NoDup (x_msgid <$> append_if_new ts d).
Proof.
  intros Hnd. unfold append_if_new.
  destruct (already_added (x_msgid d) ts) eqn:Ha; [done|].
  rewrite fmap_app. apply NoDup_app. split_and!; [done| |apply NoDup_singleton].
  intros m Hm ->%list_elem_of_singleton.
  apply already_added_elem in Hm. congruence.
Qed.

Lemma append_if_new_elem ts d r :
  r ∈ append_if_new ts d → r ∈ ts ∨ r = d.
Proof.
  unfold append_if_new. destruct (already_added _ _); [by left|].
  rewrite elem_of_app, list_elem_of_singleton. done.
Qed.

Lemma append_if_new_msgid ts d :
  x_msgid d ∈ x_msgid <$> append_if_new ts d.
Proof.
  unfold append_if_new. destruct (already_added _ _) eqn:Ha.
  - by apply already_added_elem.
  - rewrite fmap_app. apply elem_of_app. right. by left.
Qed.

Lemma append_if_new_keeps ts d m :
  m ∈ x_msgid <$> ts → m ∈ x_msgid <$> append_if_new ts d.
Proof.
  intros Hm. destruct (append_if_new_prefix ts d) as [k ->].
  rewrite fmap_app. apply elem_of_app. by left.
Qed.

Lemma fold_left_prefix {B} (f : list ExchangeRecord → B → list ExchangeRecord)
    l ts :
  (∀ ts b, ts `prefix_of` f ts b) → ts `prefix_of` fold_left f l ts.
Proof.
  intros Hf. revert ts. induction l as [|b l IH]; intros ts; [done|].
  simpl. etrans; [apply (Hf ts b) | apply IH].
Qed.

Lemma fold_left_keeps {B} (f : list ExchangeRecord → B → list ExchangeRecord)
    l ts m :
  (∀ ts b, ts `prefix_of` f ts b) →
  m ∈ x_msgid <$> ts → m ∈ x_msgid <$> fold_left f l ts.
Proof.
  intros Hf Hm. destruct (fold_left_prefix f l ts Hf) as [k ->].
  rewrite fmap_app. apply elem_of_app. by left.
Qed.

Section ExtractionProperties.
Context `{Polib} `{Interp} `{Pathlib}.

Lemma html_step_prefix ts e : ts `prefix_of` html_step ts e.
Proof.
  unfold html_step. repeat case_match; auto using append_if_new_prefix.
Qed.

Lemma modules_step_prefix mod_root ts e :
  ts `prefix_of` modules_step mod_root ts e.
Proof.
  unfold modules_step. repeat case_match; auto using append_if_new_prefix.
Qed.

Lemma helptexts_step_prefix po ts item :
  ts `prefix_of` helptexts_step po ts item.
Proof.
  unfold helptexts_step. repeat case_match; auto using append_if_new_prefix.
Qed.

(** *** Dedup invariant *)

(** C6.  Under each of the three strategies no two records of the
    extraction output share a msgid.  A candidate whose msgid is already
    in the list leaves the list as it is, with no error, and what was
    appended while the first part of the catalog (or of the help-text
    keys) was processed stays, in its place, whatever follows: the first
    record for a msgid wins. *)
Theorem extraction_dedup po mod_root help_texts :
  NoDup (x_msgid <$> extract_html po)
  ∧ NoDup (x_msgid <$> extract_modules mod_root po)
  ∧ NoDup (x_msgid <$> extract_helptexts po help_texts)
  ∧ (∀ ts d, x_msgid d ∈ x_msgid <$> ts → append_if_new ts d = ts)
  ∧ (∀ po', extract_html po `prefix_of` extract_html (po ++ po'))
  ∧ (∀ po', extract_modules mod_root po
            `prefix_of` extract_modules mod_root (po ++ po'))
  ∧ (∀ more, extract_helptexts po help_texts
             `prefix_of` extract_helptexts po (help_texts ++ more)).
Proof.
  split_and!.
  - apply (fold_left_invariant (λ ts, NoDup (x_msgid <$> ts))).
    + constructor.
    + intros ts e _ Hts. unfold html_step.
      repeat case_match; auto using append_if_new_NoDup.
  - apply (fold_left_invariant (λ ts, NoDup (x_msgid <$> ts))).
    + constructor.
    + intros ts e _ Hts. unfold modules_step.
      repeat case_match; auto using append_if_new_NoDup.
  - apply (fold_left_invariant (λ ts, NoDup (x_msgid <$> ts))).
    + constructor.
    + intros ts [k s] _ Hts. unfold helptexts_step.
      repeat case_match; auto using append_if_new_NoDup.
  - apply append_if_new_old.
  - intros po'. unfold extract_html. rewrite fold_left_app.
    apply fold_left_prefix, html_step_prefix.
  - intros po'. unfold extract_modules. rewrite fold_left_app.
    apply fold_left_prefix, modules_step_prefix.
  - intros more. unfold extract_helptexts. rewrite fold_left_app.
    apply fold_left_prefix, helptexts_step_prefix.
Qed.

(** *** Translated entries are never extracted *)






(** *** Module-path reachability: occurrences whose file is missing *)

Lemma scan_occurrences_app mod_root pre post :
  scan_occurrences mod_root (pre ++ post) =
  match scan_occurrences mod_root pre with
  | Some module_name => Some module_name
  | None => scan_occurrences mod_root post
  end.
Proof.
  induction pre as [|[file_path n] pre IH]; [done|].
  simpl. destruct (negb _); [done|]. by destruct (module_imported _).
Qed.

(** C8.  An occurrence whose resolved file does not exist is skipped:
    the scan of the occurrences gives what it gives without it, so the
    remaining occurrences are tried and nothing is raised.  When no
    earlier occurrence succeeds and an occurrence has an existing file
    whose module is imported, the scan breaks there, whatever follows,
    and the entry, if it is not translated, is appended. *)
Theorem missing_file_occurrence_skipped mod_root pre file_path n post :
  (path_exists (resolve_occurrence mod_root file_path) = false →
   scan_occurrences mod_root (pre ++ (file_path, n) :: post)
   = scan_occurrences mod_root (pre ++ post))
  ∧ (scan_occurrences mod_root pre = None →
     path_exists (resolve_occurrence mod_root file_path) = true →
     module_imported
       (module_name_of mod_root (resolve_occurrence mod_root file_path))
     = true →
     scan_occurrences mod_root (pre ++ (file_path, n) :: post)
     = Some (module_name_of mod_root (resolve_occurrence mod_root file_path))
     ∧ ∀ ts entry,
         translated entry = false →
         occurrences entry = pre ++ (file_path, n) :: post →
         modules_step mod_root ts entry
         = append_if_new ts (entry_dict (msgid entry) entry)).
Proof.
  split.
  - intros Hex. rewrite !scan_occurrences_app. simpl. by rewrite Hex.
  - intros Hpre Hex Himp.
    assert (scan_occurrences mod_root (pre ++ (file_path, n) :: post)
            = Some (module_name_of mod_root
                      (resolve_occurrence mod_root file_path))) as Hscan.
    { rewrite scan_occurrences_app, Hpre. simpl. by rewrite Hex, Himp. }
    split; [done|].
    intros ts entry Ht Hocc. unfold modules_step.
    by rewrite Ht, Hocc, Hscan.
Qed.

End ExtractionProperties.

(** *** The properties on a concrete host *)


Lemma missing_file_occurrence_skipped_witness :
  let interp := table_interp [("pkg.sub.mod", PyObj "pkg.sub.mod")] [] in
  let paths := table_pathlib ["/srv/site/pkg/sub/mod.py"] in
  let entry := mkPOEntry "Save" "" "" ∅
                 [("missing/file.py", 3); ("pkg/sub/mod.py", 10)] false in
  @scan_occurrences interp paths "/srv/site" (occurrences entry)
  = @scan_occurrences interp paths "/srv/site" [("pkg/sub/mod.py", 10)]
  ∧ @scan_occurrences interp paths "/srv/site" (occurrences entry)
    = Some "pkg.sub.mod"
  ∧ @extract_modules spec_polib interp paths "/srv/site" [entry]
    = [mkExchange "Save" None].
Proof.
  intros interp paths entry.
  pose proof (@missing_file_occurrence_skipped spec_polib interp paths
                "/srv/site" [] "missing/file.py" 3 [("pkg/sub/mod.py", 10)])
    as [Hskip _].
  pose proof (@missing_file_occurrence_skipped spec_polib interp paths
                "/srv/site" [("missing/file.py", 3)] "pkg/sub/mod.py" 10 [])
    as [_ Hfound].
  destruct Hfound as [Hscan Hstep]; [reflexivity..|].
  split_and!.
  - apply Hskip. reflexivity.
  - exact Hscan.
  - unfold extract_modules. simpl fold_left.
    rewrite (Hstep [] entry eq_refl eq_refl). reflexivity.
Defined.

(** ** Dotted-symbol reachability *)

Section DottedWalk.
Context `{Interp}.

(** Where no module and no attribute has the value [None], the walk of
    [helptexts.run] resolves a key exactly when the walk of the
    specification does. *)
Lemma walk_key_refines parts i rest obj cur :
  (∀ name, sys_modules !! name ≠ Some PyNone) →
  (∀ o name, py_getattr o name ≠ Some PyNone) →
  match cur with
  | Some o => obj = o ∧ o ≠ PyNone
  | None => obj = PyNone
  end →
  is_not_None (walk_key parts i rest obj)
  = bool_decide (is_Some (walk_key_spec parts i rest cur)).
Proof.
  intros Hmods Hattrs. revert i obj cur.
  induction rest as [|part rest IH]; intros i obj cur Hcur; simpl.
  - destruct cur as [o|].
    + destruct Hcur as [-> Ho]. destruct o; [done|].
      reflexivity.
    + by subst obj.
  - destruct (sys_modules !! _) as [m|] eqn:Hm.
    { apply IH. split; [done|]. intros ->. by eapply Hmods. }
    destruct cur as [o|].
    + destruct Hcur as [-> Ho].
      destruct o as [|o]; [done|]. simpl.
      destruct (py_getattr (PyObj o) part) as [o'|] eqn:Hg.
      * apply IH. split; [done|]. intros ->. by eapply Hattrs.
      * reflexivity.
    + by subst obj.
Qed.

Lemma resolve_key_refines k :
  (∀ name, sys_modules !! name ≠ Some PyNone) →
  (∀ o name, py_getattr o name ≠ Some PyNone) →
  is_not_None (resolve_key k) = key_resolves_spec k.
Proof.
  intros Hmods Hattrs. unfold resolve_key, key_resolves_spec.
  by apply walk_key_refines.
Qed.

End DottedWalk.

(** C9 on a host where an attribute has the value [None].  With the
    module [m] loaded and [m.x = None], every segment of the key [m.x] is
    resolved, [m] directly and [x] as an attribute of [m], so the key
    resolves in the words of the specification; the walk of
    [helptexts.run] ends with [obj] being [None] and treats the key as
    unresolved, so the help text of the key is not extracted. *)
Theorem resolve_key_none_attribute :
  let interp := table_interp [("m", PyObj "m")] [("m", "x", PyNone)] in
  let po := [mkPOEntry "Tick to enable" "" "" ∅ [] false] in
  @key_resolves_spec interp "m.x" = true
  ∧ @resolve_key interp "m.x" = PyNone
  ∧ @module_imported interp "m.x" = true
  ∧ @extract_helptexts spec_polib interp po [("m.x", "Tick to enable")] = [].
Proof. repeat split; vm_compute; reflexivity. Qed.

(** ** The path of the compiled catalog *)

Lemma string_app_cons c s1 s2 : String c s1 +:+ s2 = String c (s1 +:+ s2).
Proof. reflexivity. Qed.

Lemma list_ascii_of_string_app s1 s2 :
  list_ascii_of_string (s1 +:+ s2)
  = list_ascii_of_string s1 ++ list_ascii_of_string s2.
Proof.
  induction s1 as [|c s1 IH]; [done|].
  rewrite string_app_cons. simpl. by rewrite IH.
Qed.

Lemma substring_app_prefix dir s n :
  String.substring 0 (String.length dir + n) (dir +:+ s)
  = dir +:+ String.substring 0 n s.
Proof.
  induction dir as [|c dir IH]; [done|].
  rewrite !string_app_cons. simpl. by rewrite IH.
Qed.

Lemma string_length_app s1 s2 :
  String.length (s1 +:+ s2) = String.length s1 + String.length s2.
Proof.
  induction s1 as [|c s1 IH]; [done|].
  rewrite string_app_cons. simpl. by rewrite IH.
Qed.

Lemma string_app_assoc s1 s2 s3 : (s1 +:+ s2) +:+ s3 = s1 +:+ (s2 +:+ s3).
Proof.
  induction s1 as [|c s1 IH]; [done|].
  rewrite !string_app_cons. by rewrite IH.
Qed.

(** [update.run] always compiles to the sibling of its catalog: the
    catalog path ends in [/django.po], whatever the directory. *)
Lemma update_mo_path_sibling dir :
  update_mo_path (dir +:+ "/django.po") = dir +:+ "/django.mo"
  ∧ sibling_mo_path (dir +:+ "/django.po") = dir +:+ "/django.mo".
Proof.
  assert (suffix_length (dir +:+ "/django.po") = 3) as Hsuf.
  { unfold suffix_length.
    rewrite list_ascii_of_string_app, rev_app_distr. reflexivity. }
  assert (String.length (dir +:+ "/django.po") - 3 = String.length dir + 7)
    as Hlen.
  { rewrite string_length_app. simpl. lia. }
  unfold update_mo_path, with_suffix, sibling_mo_path.
  rewrite Hsuf, Hlen, substring_app_prefix. rewrite string_app_assoc. done.
Qed.

(** C2 at a path with [.po] inside a directory name.  [compile.run]
    replaces every occurrence of [.po] in the path, so the binary catalog
    is written under another directory, not beside the textual catalog;
    [update.run], which replaces the suffix, gives the sibling path. *)
Theorem compile_mo_file_path_inner_match :
  let po_file := "/home/dev/.poetry/app/locale/bn/LC_MESSAGES/django.po" in
  compile_mo_file_path po_file
  = "/home/dev/.moetry/app/locale/bn/LC_MESSAGES/django.mo"
  ∧ sibling_mo_path po_file
    = "/home/dev/.poetry/app/locale/bn/LC_MESSAGES/django.mo"
  ∧ update_mo_path po_file
    = "/home/dev/.poetry/app/locale/bn/LC_MESSAGES/django.mo"
  ∧ compile_mo_file_path po_file ≠ sibling_mo_path po_file.
Proof. repeat split; try reflexivity. vm_compute. discriminate. Qed.

(** ** Round trip *)

Lemma needs_update_defined d idx l :
  (∀ k, k < size d → is_Some (d !! k)) →
  is_Some (needs_update_from d idx l).
Proof.
  intros Hd. revert idx. induction l as [|t l IH]; intros idx; simpl; [eauto|].
  destruct (Nat.ltb_spec idx (size d)) as [Hlt|]; [|eauto].
  destruct (Hd idx Hlt) as [cur ->].
  destruct (String.eqb cur t); eauto.
Qed.

Lemma needs_update_false d idx l :
  needs_update_from d idx l = Some false →
  ∀ j t, l !! j = Some t → d !! (idx + j) = Some t.
Proof.
  revert idx. induction l as [|t l IH]; intros idx Hn j t' Hj; [done|].
  simpl in Hn.
  destruct (idx <? size d); [|done].
  destruct (d !! idx) as [cur|] eqn:Hcur; [|done].
  destruct (String.eqb_spec cur t) as [->|]; [|done].
  destruct j as [|j]; simpl in Hj.
  - simplify_eq. by rewrite Nat.add_0_r.
  - replace (idx + S j) with (S idx + j) by lia. by eapply IH.
Qed.

Lemma contiguous_below_size (d : gmap nat string) :
  (∀ k j, is_Some (d !! k) → j < k → is_Some (d !! j)) →
  ∀ k, k < size d → is_Some (d !! k).
Proof.
  intros Hd k Hk.
  destruct (d !! k) as [x|] eqn:Hx; [eauto|]. exfalso.
  assert (dom d ⊆ set_seq (C:=gset nat) 0 k) as Hsub.
  { intros j Hj%elem_of_dom. apply elem_of_set_seq. split; [lia|].
    destruct (decide (j < k)); [done|].
    destruct (decide (j = k)) as [->|].
    - rewrite Hx in Hj. by destruct Hj.
    - destruct (Hd j k Hj) as [? ?]; [lia|congruence]. }
  apply subseteq_size in Hsub. rewrite size_dom, size_set_seq in Hsub. lia.
Qed.

Lemma nonempty_translation_neq s :
  is_empty_translation s = false → s ≠ EmptyString.
Proof. intros Hs%nonempty_translation_truthy ->. done. Qed.

Lemma any_nonempty_false_nil l :
  Forall (λ s, is_empty_translation s = false) l →
  any_nonempty l = false → l = [].
Proof.
  intros Hl Ha. destruct l as [|s l]; [done|]. exfalso.
  apply Forall_cons in Hl as [Hs _].
  unfold any_nonempty in Ha. simpl in Ha.
  unfold is_empty_translation in Hs.
  destruct (PyStr.truthy s), (PyStr.truthy (PyStr.strip s)); done.
Qed.

Lemma fold_left_nil_steps {A B} (f : list A → B → list A) (l : list B) :
  (∀ b, b ∈ l → f [] b = []) → fold_left f l [] = [].
Proof.
  induction l as [|b l IH]; intros Hf; [done|].
  simpl. rewrite Hf by left. apply IH. intros b' Hb'. apply Hf. by right.
Qed.

Section ExtractionComplete.
Context `{Polib} `{Interp} `{Pathlib}.

(** Every untranslated entry with a template occurrence has its msgid
    in the output. *)
Lemma extract_html_complete po e :
  e ∈ po → translated e = false →
  has_html_source (occurrences e) = true →
  msgid e ∈ x_msgid <$> extract_html po.
Proof.
  intros (l1 & l2 & ->)%list_elem_of_split Ht Hs.
  unfold extract_html. rewrite fold_left_app. simpl.
  apply fold_left_keeps; [apply html_step_prefix|].
  unfold html_step at 1. rewrite Ht, Hs. simpl.
  apply (append_if_new_msgid _ (entry_dict (msgid e) e)).
Qed.

Lemma extract_modules_complete mod_root po e :
  e ∈ po → translated e = false →
  is_Some (scan_occurrences mod_root (occurrences e)) →
  msgid e ∈ x_msgid <$> extract_modules mod_root po.
Proof.
  intros (l1 & l2 & ->)%list_elem_of_split Ht [module_name Hs].
  unfold extract_modules. rewrite fold_left_app. simpl.
  apply fold_left_keeps; [apply modules_step_prefix|].
  unfold modules_step at 1. rewrite Ht, Hs.
  apply (append_if_new_msgid _ (entry_dict (msgid e) e)).
Qed.

Lemma extract_helptexts_complete po help_texts k s i e :
  (k, s) ∈ help_texts →
  is_not_None (resolve_key k) = true →
  find po s = Some (i, e) → translated e = false →
  s ∈ x_msgid <$> extract_helptexts po help_texts.
Proof.
  intros (l1 & l2 & ->)%list_elem_of_split Hk Hf Ht.
  unfold extract_helptexts. rewrite fold_left_app. simpl.
  apply fold_left_keeps; [apply helptexts_step_prefix|].
  unfold helptexts_step at 1. rewrite Hk, Hf, Ht. simpl.
  apply (append_if_new_msgid _ (entry_dict s e)).
Qed.

End ExtractionComplete.

(** Both readings of [entry.translated()] take an entry that is not
    fuzzy and is filled in as translated. *)
Lemma translated_spec_filled e :
  fuzzy e = false → filled e → translated_spec e = true.
Proof.
  intros _. unfold filled, translated_spec.
  destruct (PyStr.truthy (msgid_plural e)).
  - intros [_ Hall]. by apply bool_decide_eq_true.
  - by destruct (msgstr e).
Qed.

Lemma polib_translated_filled e :
  fuzzy e = false → filled e → polib_translated e = true.
Proof.
  intros Hf. unfold filled, polib_translated. rewrite Hf.
  destruct (PyStr.truthy (msgid_plural e)).
  - intros [Hne Hall]. destruct (PyStr.truthy (msgstr e)); [done|].
    rewrite bool_decide_eq_false_2 by done. by apply bool_decide_eq_true.
  - by destruct (msgstr e).
Qed.

Section RoundTrip.
Context `{Polib}.
Hypothesis translated_filled :
  ∀ e, fuzzy e = false → filled e → translated e = true.

(** An entry that already holds the strings of a value that translates
    it is filled in. *)
Lemma singular_settled_filled e s :
  PyStr.truthy (msgid_plural e) = false →
  singular_differs e s = false → filled e ∧ msgstr e = s.
Proof.
  intros Hp Hd. unfold filled. rewrite Hp.
  unfold singular_differs in Hd.
  destruct (PyStr.truthy (msgstr e)) eqn:Ht; [|done]. simpl in Hd.
  destruct (String.eqb_spec (msgstr e) s) as [Heq|]; [|done].
  split; [|done]. intros Hm. by rewrite Hm in Ht.
Qed.

Lemma plural_settled_filled e l :
  PyStr.truthy (msgid_plural e) = true →
  l ≠ [] →
  Forall (λ s, is_empty_translation s = false) l →
  (∀ k, is_Some (msgstr_plural e !! k) → k < length l) →
  needs_update_from (msgstr_plural e) 0 l = Some false →
  filled e.
Proof.
  intros Hp Hne Hl Hcov Hb. unfold filled. rewrite Hp. split.
  - destruct l as [|t l]; [done|].
    pose proof (needs_update_false _ _ _ Hb 0 t eq_refl) as H0.
    intros Hempty. rewrite Hempty in H0. by rewrite lookup_empty in H0.
  - intros k s Hk.
    assert (k < length l) as Hkl by (apply Hcov; eauto).
    apply lookup_lt_is_Some in Hkl as [t Ht].
    pose proof (needs_update_false _ _ _ Hb k t Ht) as Hkt.
    simpl in Hkt. simplify_eq.
    apply nonempty_translation_neq.
    by apply (Forall_lookup_1 _ _ _ _ Hl Ht).
Qed.

Lemma apply_plural_filled e l :
  PyStr.truthy (msgid_plural e) = true →
  l ≠ [] →
  Forall (λ s, is_empty_translation s = false) l →
  (∀ k, is_Some (msgstr_plural e !! k) → k < length l) →
  filled (apply_plural e l).
Proof.
  intros Hp Hne Hl Hcov. unfold filled. simpl. rewrite Hp. split.
  - destruct l as [|t l]; [done|].
    intros Hempty.
    assert (assign_from (msgstr_plural e) 0 (t :: l) !! 0 = None) as H0
      by (by rewrite Hempty, lookup_empty).
    rewrite assign_from_lookup in H0.
    rewrite decide_True in H0 by (simpl; lia). done.
  - intros k s Hk.
    rewrite assign_from_lookup in Hk. case_decide as Hkl.
    + rewrite Nat.sub_0_r in Hk.
      apply nonempty_translation_neq.
      by apply (Forall_lookup_1 _ _ _ _ Hl Hk).
    + exfalso. apply Hkl. split; [lia|]. simpl. apply Hcov. eauto.
Qed.

(** An entry that a merge leaves as it is, because it holds the strings
    of the value already, is translated unless it is an untranslated
    fuzzy entry: the merge clears [fuzzy] only when it writes. *)
Lemma settled_translated e v :
  filled e →
  (translated e = false → fuzzy e = true → differs_from e v) →
  ¬ differs_from e v →
  translated e = true.
Proof.
  intros Hfilled Hfuzzy Hsame.
  destruct (translated e) eqn:Ht; [done|].
  destruct (fuzzy e) eqn:Hf.
  - exfalso. by apply Hsame, Hfuzzy.
  - rewrite <- Ht. by apply translated_filled.
Qed.

(** Applying a value that translates the entry found for its msgid, and
    differs from it when the entry is fuzzy and untranslated, leaves the
    entry translated, with its msgid, plural msgid and occurrences. *)
Lemma merge_record_translates pk c m v i e :
  find pk m = Some (i, e) →
  plural_contiguous e →
  translates e v →
  (translated e = false → fuzzy e = true → differs_from e v) →
  ∃ e' c',
    merge_record pk c (m, v) = Some (<[i := e']> pk, c')
    ∧ msgid e' = msgid e
    ∧ msgid_plural e' = msgid_plural e
    ∧ occurrences e' = occurrences e
    ∧ translated e' = true.
Proof.
  intros Hf Hcont Htr Hfuzzy.
  pose proof (find_Some _ _ _ _ Hf) as [Hi _].
  assert (<[i := e]> pk = pk) as Hid by by apply list_insert_id.
  unfold translates in Htr. unfold merge_record. rewrite Hf.
  destruct (PyStr.truthy (msgid_plural e)) eqn:Hp.
  - destruct Htr as (l & -> & Hne & Hl & Hcov). simpl.
    destruct (any_nonempty l) eqn:Ha; simpl.
    2:{ by apply any_nonempty_false_nil in Ha. }
    destruct (needs_update_defined (msgstr_plural e) 0 l) as [b Hb].
    { by apply contiguous_below_size. }
    rewrite Hb. destruct b.
    + exists (apply_plural e l), (incr_updated c). split_and!; try done.
      apply translated_filled; [done|]. by apply apply_plural_filled.
    + exists e, c. rewrite Hid. split_and!; try done.
      apply (settled_translated e (TDict (Some (MsgstrList l)))); [|done|].
      * by apply (plural_settled_filled e l).
      * intros (j & t & Hj & Hne'). apply Hne'.
        by apply (needs_update_false _ 0 l Hb j t).
  - destruct Htr as (s & Hv & Hs).
    assert (differs_from e v ↔ msgstr e ≠ s) as Hdiff
      by (by destruct Hv as [-> | ->]).
    assert (∀ c0, (if singular_differs e s
                   then Some (<[i := apply_singular e s]> pk, incr_updated c0)
                   else Some (pk, c0))
                  = Some (<[i := if singular_differs e s
                                 then apply_singular e s else e]> pk,
                          if singular_differs e s then incr_updated c0 else c0))
      as Hbranch.
    { intros c0. destruct (singular_differs e s); [done | by rewrite Hid]. }
    assert (translated (if singular_differs e s
                        then apply_singular e s else e) = true) as Htrans.
    { destruct (singular_differs e s) eqn:Hd.
      - apply translated_filled; [done|].
        unfold filled. simpl. rewrite Hp. simpl.
        by apply nonempty_translation_neq.
      - destruct (singular_settled_filled e s Hp Hd) as [Hfilled Heq].
        apply (settled_translated e v); [done|done|].
        rewrite Hdiff. by intros Hne. }
    destruct Hv as [-> | ->]; rewrite Hs, Hbranch;
      eexists _, _; (split; [reflexivity|]);
      split_and!; try done; by destruct (singular_differs e s).
Qed.

Lemma merged_from_refl po : merged_from [] po po.
Proof.
  apply Forall2_same_length_lookup_2; [done|].
  intros i x y Hx Hy. simplify_eq. split_and!; try done.
  intros Hin. inversion Hin.
Qed.

Lemma merged_from_lookup done po pk i ek :
  merged_from done po pk → pk !! i = Some ek →
  ∃ e, po !! i = Some e ∧ msgid ek = msgid e
       ∧ (msgid e ∈ done → translated ek = true)
       ∧ (msgid e ∉ done → ek = e).
Proof.
  intros Hm Hi.
  destruct (Forall2_lookup_r _ _ _ _ _ Hm Hi) as (e & He & ? & ? & ? & ? & ?).
  eauto 10.
Qed.

Lemma merged_from_find_Some done po pk m i ek :
  merged_from done po pk → find pk m = Some (i, ek) →
  ∃ e, find po m = Some (i, e).
Proof.
  unfold find. intros Hm (Hi & Hek & Hlt)%list_find_Some.
  destruct (merged_from_lookup _ _ _ _ _ Hm Hi) as (e & He & Hid & _).
  exists e. apply list_find_Some. split_and!; [done|congruence|].
  intros j y Hj Hji.
  destruct (Forall2_lookup_l _ _ _ _ _ Hm Hj) as (yk & Hyk & Hyid & _).
  rewrite <- Hyid. by eapply Hlt.
Qed.

Lemma merged_from_find_None done po pk m :
  merged_from done po pk → find pk m = None → find po m = None.
Proof.
  intros Hm Hf. apply find_None. intros e [j Hj]%list_elem_of_lookup.
  destruct (Forall2_lookup_l _ _ _ _ _ Hm Hj) as (yk & Hyk & Hyid & _).
  rewrite <- Hyid. rewrite find_None in Hf. apply Hf.
  by eapply list_elem_of_lookup_2.
Qed.

Lemma merge_record_not_found_some pk c m v :
  find pk m = None → ∃ c', merge_record pk c (m, v) = Some (pk, c').
Proof.
  intros Hf. unfold merge_record. rewrite Hf.
  destruct v as [s| |]; [destruct (is_empty_translation s)| |]; eauto.
Qed.

Lemma merged_from_step po pk c done m v :
  NoDup (msgid <$> po) →
  Forall plural_contiguous po →
  m ∉ done →
  (∀ e, e ∈ po → msgid e = m →
        translates e v
        ∧ (translated e = false → fuzzy e = true → differs_from e v)) →
  merged_from done po pk →
  ∃ pk' c', merge_record pk c (m, v) = Some (pk', c')
            ∧ merged_from (m :: done) po pk'.
Proof.
  intros Hnd Hcont Hm Hgood Hinv.
  destruct (find pk m) as [[i ek]|] eqn:Hf.
  - destruct (merged_from_find_Some _ _ _ _ _ _ Hinv Hf) as [e Hfe].
    pose proof (find_Some _ _ _ _ Hf) as [Hi Hmk].
    pose proof (find_Some _ _ _ _ Hfe) as [Hie Hme].
    destruct (merged_from_lookup _ _ _ _ _ Hinv Hi) as (e0 & He0 & _ & _ & Hsame).
    assert (e0 = e) as -> by congruence.
    assert (ek = e) as -> by (apply Hsame; congruence).
    assert (e ∈ po) as Hin by by eapply list_elem_of_lookup_2.
    destruct (Hgood e Hin Hme) as [Htr Hfuzzy].
    destruct (merge_record_translates pk c m v i e Hf) as
      (e' & c' & Hr & Hid' & Hpl' & Hocc' & Htr'); [|done..|].
    { rewrite Forall_forall in Hcont. by apply Hcont. }
    exists (<[i := e']> pk), c'. split; [done|].
    pose proof (Forall2_length _ _ _ Hinv) as Hlen.
    apply Forall2_same_length_lookup_2; [by rewrite length_insert|].
    intros j x y Hx Hy.
    destruct (decide (j = i)) as [->|Hji].
    + rewrite list_lookup_insert_eq in Hy by (by eapply lookup_lt_Some).
      simplify_eq. split_and!; try done.
      intros Hnin. exfalso. apply Hnin. left.
    + rewrite list_lookup_insert_ne in Hy by done.
      destruct (merged_from_lookup _ _ _ _ _ Hinv Hy)
        as (x' & Hx' & Hxid & Hxd & Hxs).
      assert (x' = x) as -> by congruence.
      destruct (Forall2_lookup_r _ _ _ _ _ Hinv Hy)
        as (x'' & Hx'' & ? & ? & ? & _).
      assert (x'' = x) as -> by congruence.
      assert (msgid x ≠ msgid e) as Hne.
      { intros Heq. apply Hji.
        eapply NoDup_lookup; [exact Hnd| |]; rewrite list_lookup_fmap.
        - by rewrite Hx.
        - rewrite Hie. simpl. by rewrite Heq. }
      split_and!; try done.
      * intros [?|?]%elem_of_cons; [congruence | by apply Hxd].
      * intros Hnin. apply Hxs. intros ?. apply Hnin. by right.
  - destruct (merge_record_not_found_some pk c m v Hf) as [c' Hr].
    exists pk, c'. split; [done|].
    pose proof (merged_from_find_None _ _ _ _ Hinv Hf) as Hfe.
    rewrite find_None in Hfe.
    apply Forall2_same_length_lookup_2; [by eapply Forall2_length|].
    intros j x y Hx Hy.
    destruct (Forall2_lookup_r _ _ _ _ _ Hinv Hy)
      as (x' & Hx' & ? & ? & ? & Hxd & Hxs).
    assert (x' = x) as -> by congruence.
    assert (msgid x ≠ m) by (apply Hfe; by eapply list_elem_of_lookup_2).
    split_and!; try done.
    + intros [?|?]%elem_of_cons; [done | by apply Hxd].
    + intros Hnin. apply Hxs. intros ?. apply Hnin. by right.
Qed.

Lemma merge_loop_translates po recs :
  NoDup (msgid <$> po) →
  Forall plural_contiguous po →
  NoDup recs.*1 →
  (∀ m v e, (m, v) ∈ recs → e ∈ po → msgid e = m →
            translates e v
            ∧ (translated e = false → fuzzy e = true → differs_from e v)) →
  ∀ pk c done,
    (∀ m, m ∈ recs.*1 → m ∉ done) →
    merged_from done po pk →
    ∃ po1 c1 done',
      merge_loop pk c recs = Some (po1, c1)
      ∧ (∀ m, m ∈ done' ↔ m ∈ recs.*1 ∨ m ∈ done)
      ∧ merged_from done' po po1.
Proof.
  intros Hnd Hcont. induction recs as [|[m v] recs IH];
    intros Hkeys Hgood pk c done Hfresh Hinv.
  - exists pk, c, done. split_and!; [done| |done].
    intros m. rewrite fmap_nil, elem_of_nil. tauto.
  - rewrite fmap_cons in Hkeys. apply NoDup_cons in Hkeys as [Hm Hkeys].
    destruct (merged_from_step po pk c done m v) as (pk' & c' & Hr & Hinv');
      [done..| | | done |].
    { apply Hfresh. left. }
    { intros e He Hid. eapply Hgood; [left|done..]. }
    destruct (IH Hkeys) with (pk := pk') (c := c') (done := m :: done)
      as (po1 & c1 & done' & Hl & Hdone & Hfin); [|  |done|].
    { intros m' v' e Hin. apply Hgood. by right. }
    { intros m' Hm' [->|Hd]%elem_of_cons; [done|].
      eapply Hfresh; [|done]. by right. }
    exists po1, c1, done'. rewrite merge_loop_cons, Hr. split_and!; [done| |done].
    intros m'. rewrite Hdone, fmap_cons, !elem_of_cons. simpl. tauto.
Qed.

End RoundTrip.

(** C4, as the code has it.  [entry.translated()] is any test that takes
    an entry as translated when it is not fuzzy and is filled in, which
    polib's does for entries that are not obsolete and the derived state
    of the specification does as well.  Take a catalog with unique msgids
    and contiguous plural indices, and a mapping of records in which
    every value translates the entry of its msgid (strings that are
    neither empty nor all-whitespace, a single string for an entry
    without [msgid_plural] and a non-empty list covering every plural
    index for an entry with one) and differs from what the entry holds
    when the entry is fuzzy and untranslated.  The merge returns, and
    under each of the three strategies, when the mapping has a record for
    every msgid of the extraction, the extraction from the merged catalog
    is empty. *)
Theorem round_trip `{Polib} `{Interp} `{Pathlib} po recs :
  (∀ e, fuzzy e = false → filled e → translated e = true) →
  NoDup (msgid <$> po) →
  Forall plural_contiguous po →
  NoDup recs.*1 →
  (∀ m v e, (m, v) ∈ recs → e ∈ po → msgid e = m →
            translates e v
            ∧ (translated e = false → fuzzy e = true → differs_from e v)) →
  ∃ po1 c1,
    merge po recs = Some (po1, c1)
    ∧ ((∀ m, m ∈ x_msgid <$> extract_html po → m ∈ recs.*1) →
       extract_html po1 = [])
    ∧ (∀ mod_root,
         (∀ m, m ∈ x_msgid <$> extract_modules mod_root po → m ∈ recs.*1) →
         extract_modules mod_root po1 = [])
    ∧ (∀ help_texts,
         (∀ m, m ∈ x_msgid <$> extract_helptexts po help_texts → m ∈ recs.*1) →
         extract_helptexts po1 help_texts = []).
Proof.
  intros Hfilled Hnd Hcont Hkeys Hgood.
  destruct (merge_loop_translates Hfilled po recs Hnd Hcont Hkeys Hgood
              po zero_counters [])
    as (po1 & c1 & done' & Hm & Hdone & Hinv).
  { intros m _ Hin. inversion Hin. }
  { apply merged_from_refl. }
  exists po1, c1. split; [done|].
  assert (∀ i e1, po1 !! i = Some e1 → translated e1 = false →
                  po !! i = Some e1 ∧ msgid e1 ∉ recs.*1) as Hsame.
  { intros i e1 Hi Ht.
    destruct (merged_from_lookup _ _ _ _ _ Hinv Hi) as (e & He & Hid & Hd & Hs).
    destruct (decide (msgid e ∈ done')) as [Hin|Hnin].
    - rewrite Hd in Ht by done. done.
    - rewrite (Hs Hnin) in *. split; [done|].
      intros Hr. apply Hnin, Hdone. by left. }
  split_and!.
  - intros Hall. apply fold_left_nil_steps. intros e1 [i Hi]%list_elem_of_lookup.
    unfold html_step. simpl.
    destruct (translated e1) eqn:Ht; [done|].
    destruct (has_html_source (occurrences e1)) eqn:Hs; [|done].
    exfalso. destruct (Hsame i e1 Hi Ht) as [Hpo Hnin].
    apply Hnin, Hall.
    apply extract_html_complete; [|done..].
    by eapply list_elem_of_lookup_2.
  - intros mod_root Hall. apply fold_left_nil_steps.
    intros e1 [i Hi]%list_elem_of_lookup.
    unfold modules_step. simpl.
    destruct (translated e1) eqn:Ht; [done|].
    destruct (scan_occurrences mod_root (occurrences e1)) eqn:Hs; [|done].
    exfalso. destruct (Hsame i e1 Hi Ht) as [Hpo Hnin].
    apply Hnin, Hall.
    apply extract_modules_complete; [|done|by rewrite Hs].
    by eapply list_elem_of_lookup_2.
  - intros help_texts Hall. apply fold_left_nil_steps.
    intros [k s] Hks. unfold helptexts_step.
    destruct (is_not_None (resolve_key k)) eqn:Hk; [|done].
    destruct (find po1 s) as [[i e1]|] eqn:Hf; [|done].
    simpl. destruct (translated e1) eqn:Ht; [done|]. simpl.
    exfalso.
    pose proof (find_Some _ _ _ _ Hf) as [Hi Hid].
    destruct (Hsame i e1 Hi Ht) as [Hpo Hnin].
    destruct (merged_from_find_Some _ _ _ _ _ _ Hinv Hf) as [e Hfe].
    pose proof (find_Some _ _ _ _ Hfe) as [Hie _].
    assert (e = e1) as -> by congruence.
    apply Hnin. rewrite Hid. apply Hall.
    by eapply extract_helptexts_complete.
Qed.

Lemma round_trip_witness :
  let interp := table_interp [("pkg", PyObj "pkg")] [("pkg", "views", PyObj "v")] in
  let paths := table_pathlib ["/srv/site/pkg/views.py"] in
  let e1 := mkPOEntry "Save" "" "Sichern" ∅ [("pkg/page.html", 3)] true in
  let e2 := mkPOEntry "%d file" "%d files" "" {[0 := ""; 1 := ""]}
              [("pkg/views.py", 8)] false in
  let recs := [("Save", TStr "Speichern");
               ("%d file", TDict (Some (MsgstrList ["%d Datei"; "%d Dateien"])))] in
  @extract_html fuzzy_aware_polib [e1; e2] = [mkExchange "Save" None]
  ∧ @extract_modules fuzzy_aware_polib interp paths "/srv/site" [e1; e2]
    = [mkExchange "%d file" (Some "%d files")]
  ∧ ∃ po1 c1,
      merge [e1; e2] recs = Some (po1, c1)
      ∧ @extract_html fuzzy_aware_polib po1 = []
      ∧ @extract_modules fuzzy_aware_polib interp paths "/srv/site" po1 = [].
Proof.
  intros interp paths e1 e2 recs.
  split; [reflexivity|]. split; [reflexivity|].
  destruct (@round_trip fuzzy_aware_polib interp paths [e1; e2] recs)
    as (po1 & c1 & Hm & Hhtml & Hmod & _).
  - exact polib_translated_filled.
  - apply (bool_decide_unpack _). vm_compute. exact I.
  - repeat constructor.
    + intros k j [x Hx]. simpl in Hx. by rewrite lookup_empty in Hx.
    + intros k j [x Hx] Hjk. simpl in *.
      destruct k as [|[|k]]; [lia| |].
      * assert (j = 0) as -> by lia. vm_compute. eauto.
      * rewrite lookup_insert_ne, lookup_singleton_ne in Hx by lia. done.
  - apply (bool_decide_unpack _). vm_compute. exact I.
  - intros m v e Hin He Hid.
    apply elem_of_cons in He as [->|He].
    { apply elem_of_cons in Hin as [Hin|Hin]; [simplify_eq|].
      - split; [vm_compute; eauto|]. intros _ _. simpl. discriminate.
      - apply list_elem_of_singleton in Hin. simplify_eq. }
    apply list_elem_of_singleton in He as ->.
    apply elem_of_cons in Hin as [Hin|Hin]; [simplify_eq|].
    apply list_elem_of_singleton in Hin. simplify_eq.
    split; [|intros _ Hfuzzy; discriminate Hfuzzy].
    unfold translates. simpl. eexists. split; [reflexivity|].
    split; [discriminate|].
    split; [repeat constructor|].
    intros k [x Hx]. simpl.
    destruct k as [|[|k]]; [lia..|].
    rewrite lookup_insert_ne, lookup_singleton_ne in Hx by lia. done.
  - exists po1, c1. split; [done|]. split.
    + apply Hhtml. intros m Hin. vm_compute in Hin.
      apply list_elem_of_singleton in Hin as ->. left.
    + apply Hmod. intros m Hin. vm_compute in Hin.
      apply list_elem_of_singleton in Hin as ->. right. left.
Defined.

(** C4 as stated fails.  Under either reading of [entry.translated()], a
    record whose string is not empty but all whitespace is counted as
    skipped and leaves the entry as it is, and a list of non-empty
    strings shorter than the plural indices of its entry leaves the later
    slots empty.  Under polib's reading, a fuzzy entry that already holds
    the string of its record is left as it is, fuzzy included, since the
    merge clears [fuzzy] only when it writes.  In each case the entry is
    extracted again after the merge. *)
Lemma round_trip_records_not_translating :
  let e := mkPOEntry "Save" "" "" ∅ [("pkg/page.html", 3)] false in
  let p := mkPOEntry "%d file" "%d files" "" {[0 := ""; 1 := ""]}
             [("pkg/page.html", 9)] false in
  let p' := mkPOEntry "%d file" "%d files" "" {[0 := "%d Datei"; 1 := ""]}
              [("pkg/page.html", 9)] false in
  let f := mkPOEntry "Save" "" "Speichern" ∅ [("pkg/page.html", 3)] true in
  Forall (λ polib : Polib,
            (@extract_html polib [e] = [mkExchange "Save" None]
             ∧ PyStr.truthy " " = true
             ∧ merge [e] [("Save", TStr " ")] = Some ([e], mkCounters 0 1 0)
             ∧ @extract_html polib [e] ≠ [])
            ∧ (@extract_html polib [p]
               = [mkExchange "%d file" (Some "%d files")]
               ∧ merge [p] [("%d file", TDict (Some (MsgstrList ["%d Datei"])))]
                 = Some ([p'], mkCounters 1 0 0)
               ∧ @extract_html polib [p'] ≠ []))
         [spec_polib; fuzzy_aware_polib]
  ∧ (@extract_html fuzzy_aware_polib [f] = [mkExchange "Save" None]
     ∧ PyStr.truthy "Speichern" = true
     ∧ merge [f] [("Save", TStr "Speichern")] = Some ([f], zero_counters)
     ∧ @extract_html fuzzy_aware_polib [f] ≠ []).
Proof.
  split; [repeat constructor|repeat split];
    try reflexivity; vm_compute; discriminate.
Qed.

(** ** The merge returns on well-formed catalogs *)

Lemma assign_from_contiguous d l :
  (∀ k j, is_Some (d !! k) → j < k → is_Some (d !! j)) →
  ∀ k j, is_Some (assign_from d 0 l !! k) → j < k →
         is_Some (assign_from d 0 l !! j).
Proof.
  intros Hd k j Hk Hjk. rewrite assign_from_lookup in *.
  repeat case_decide; try lia.
  - apply lookup_lt_is_Some. lia.
  - apply lookup_lt_is_Some. lia.
  - by eapply Hd.
Qed.

Lemma merge_record_returns po c r :
  Forall plural_contiguous po →
  ∃ po' c', merge_record po c r = Some (po', c')
            ∧ Forall plural_contiguous po'.
Proof.
  intros Hpo. destruct r as [m v].
  assert (∀ i e e', po !! i = Some e → plural_contiguous e' →
                    Forall plural_contiguous (<[i := e']> po)) as Hins.
  { intros i e e' Hi He'. apply Forall_insert; done. }
  unfold merge_record.
  destruct (find po m) as [[i e]|] eqn:Hf.
  - pose proof (find_Some _ _ _ _ Hf) as [Hi _].
    assert (plural_contiguous e) as He.
    { rewrite Forall_forall in Hpo. apply Hpo. by eapply list_elem_of_lookup_2. }
    destruct v as [s|[[l|s|]|]|].
    + repeat case_match; eauto.
    + destruct (needs_update_defined (msgstr_plural e) 0 l) as [upd Hupd];
        [by apply contiguous_below_size|].
      rewrite Hupd. repeat case_match; eauto.
      eexists _, _. split; [done|]. eapply Hins; [done|].
      unfold plural_contiguous, apply_plural. simpl.
      by apply assign_from_contiguous.
    + repeat case_match; eauto.
    + eauto.
    + eauto.
    + eauto.
  - destruct v as [s|?|]; repeat case_match; eauto.
Qed.

(** On a catalog whose plural indices are contiguous the merge raises
    nothing: it returns a catalog and the three counters. *)
Lemma merge_returns po translations :
  Forall plural_contiguous po → is_Some (merge po translations).
Proof.
  unfold merge. generalize zero_counters as c. revert po.
  induction translations as [|r rest IH]; intros po c Hpo; [by eexists|].
  rewrite merge_loop_cons.
  destruct (merge_record_returns po c r Hpo) as (po' & c' & -> & Hpo').
  by apply IH.
Qed.

(** * Further properties of the commands *)

(** ** What a merge changes *)

Lemma needs_update_true d idx l :
  (∀ k, k < idx → is_Some (d !! k)) →
  needs_update_from d idx l = Some true →
  ∃ j t, l !! j = Some t ∧ d !! (idx + j) ≠ Some t.
Proof.
  revert idx. induction l as [|t l IH]; intros idx Hbelow Hn; [done|].
  simpl in Hn.
  destruct (Nat.ltb_spec idx (size d)) as [Hlt|Hge].
  - destruct (d !! idx) as [cur|] eqn:Hcur; [|done].
    destruct (String.eqb_spec cur t) as [->|Hne].
    + destruct (IH (S idx)) as (j & t' & Hj & Hd); [|done|].
      { intros k Hk. destruct (decide (k = idx)) as [->|]; [eauto|].
        apply Hbelow. lia. }
      exists (S j), t'. split; [done|].
      by replace (idx + S j) with (S idx + j) by lia.
    + exists 0, t. rewrite Nat.add_0_r, Hcur. split; [done|]. congruence.
  - exists 0, t. rewrite Nat.add_0_r. split; [done|].
    intros Hd.
    assert (S idx ≤ size d); [|lia].
    apply size_ge_of_prefix_keys. intros k Hk.
    destruct (decide (k = idx)) as [->|]; [eauto|]. apply Hbelow. lia.
Qed.

(** One record either leaves the catalog as it is and counts no update,
    or replaces the entry found for its msgid by a different entry with
    the same msgid, plural msgid and occurrences, not fuzzy, whose
    [msgstr] is the old one or a string that is not blank, and counts one
    update. *)
Lemma merge_record_effect pk c m v pk' c' :
  merge_record pk c (m, v) = Some (pk', c') →
  (pk' = pk ∧ updated_count c' = updated_count c)
  ∨ ∃ i e e',
      find pk m = Some (i, e) ∧ pk' = <[i := e']> pk
      ∧ c' = incr_updated c ∧ e' ≠ e ∧ same_source e e' ∧ fuzzy e' = false
      ∧ (msgstr e' = msgstr e ∨ is_empty_translation (msgstr e') = false).
Proof.
  assert (∀ e s, is_empty_translation s = false →
                 singular_differs e s = true → apply_singular e s ≠ e) as Hsing.
  { intros e s Hs Hd Heq.
    assert (msgstr e = s) as Hm by (by rewrite <- Heq at 1).
    unfold singular_differs in Hd. rewrite Hm, String.eqb_refl in Hd.
    by rewrite (nonempty_translation_truthy s Hs) in Hd. }
  assert (∀ e l, needs_update_from (msgstr_plural e) 0 l = Some true →
                 apply_plural e l ≠ e) as Hplur.
  { intros e l Hn Heq.
    destruct (needs_update_true (msgstr_plural e) 0 l)
      as (j & t & Hj & Hd); [lia|done|].
    apply Hd. simpl.
    assert (msgstr_plural e = assign_from (msgstr_plural e) 0 l) as ->
      by (by rewrite <- Heq at 1).
    rewrite assign_from_lookup. apply lookup_lt_Some in Hj as Hlt.
    case_decide; [|lia]. by rewrite Nat.sub_0_r. }
  unfold merge_record. intros Hr.
  destruct (find pk m) as [[i e]|] eqn:Hf.
  2:{ left. repeat case_match; by simplify_eq. }
  destruct v as [s|[[l|s|]|]|].
  - destruct (is_empty_translation s) eqn:Hs; [left; by simplify_eq|].
    destruct (singular_differs e s) eqn:Hd; [|left; by simplify_eq].
    right. simplify_eq. exists i, e, (apply_singular e s).
    split_and!; auto; by unfold same_source.
  - destruct (negb (PyStr.truthy (msgid_plural e))); [left; by simplify_eq|].
    destruct (negb (any_nonempty l)); [left; by simplify_eq|].
    destruct (needs_update_from (msgstr_plural e) 0 l) as [[]|] eqn:Hn;
      [|left; by simplify_eq|done].
    right. simplify_eq. exists i, e, (apply_plural e l).
    split_and!; auto; by unfold same_source.
  - destruct (is_empty_translation s) eqn:Hs; [left; by simplify_eq|].
    destruct (singular_differs e s) eqn:Hd; [|left; by simplify_eq].
    right. simplify_eq. exists i, e, (apply_singular e s).
    split_and!; auto; by unfold same_source.
  - left. by simplify_eq.
  - left. by simplify_eq.
  - left. by simplify_eq.
Qed.

Lemma merged_entry_refl e : merged_entry e e.
Proof. by repeat split; try left. Qed.

Lemma merged_entry_trans e1 e2 e3 :
  merged_entry e1 e2 → merged_entry e2 e3 → merged_entry e1 e3.
Proof.
  intros [(? & ? & ?) H12] [(? & ? & ?) H23].
  split; [unfold same_source; split_and!; congruence|].
  destruct H23 as [->|[Hf3 Hm3]]; [done|].
  destruct H12 as [->|[Hf2 Hm2]]; [by right|].
  right. split; [done|].
  destruct Hm3 as [Hm3|?]; [|by right]. rewrite Hm3. done.
Qed.

Lemma merge_record_merged pk c r pk' c' :
  merge_record pk c r = Some (pk', c') → Forall2 merged_entry pk pk'.
Proof.
  destruct r as [m v].
  intros [[-> _]|(i & e & e' & Hf & -> & _ & _ & Hsrc & Hfz & Hms)]%merge_record_effect.
  - apply Forall_Forall2_diag, Forall_forall. intros. apply merged_entry_refl.
  - apply find_Some in Hf as [Hi _].
    rewrite <- (list_insert_id pk i e Hi) at 1.
    apply Forall2_insert.
    + apply Forall_Forall2_diag, Forall_forall. intros. apply merged_entry_refl.
    + split; [done|]. by right.
Qed.

Lemma merge_loop_merged pk c recs pk' c' :
  merge_loop pk c recs = Some (pk', c') → Forall2 merged_entry pk pk'.
Proof.
  revert pk c. induction recs as [|r recs IH]; intros pk c Hm.
  - simpl in Hm. simplify_eq.
    apply Forall_Forall2_diag, Forall_forall. intros. apply merged_entry_refl.
  - rewrite merge_loop_cons in Hm.
    destruct (merge_record pk c r) as [[pk1 c1]|] eqn:Hr; [|done].
    apply merge_record_merged in Hr. apply IH in Hm.
    eapply Forall2_trans; [|done..].
    intros ???. apply merged_entry_trans.
Qed.

Lemma merge_loop_untouched pk c recs pk' c' i e :
  merge_loop pk c recs = Some (pk', c') →
  pk !! i = Some e → msgid e ∉ recs.*1 → pk' !! i = Some e.
Proof.
  revert pk c. induction recs as [|[m v] recs IH]; intros pk c Hm Hi Hnin.
  - simpl in Hm. by simplify_eq.
  - rewrite merge_loop_cons in Hm.
    destruct (merge_record pk c (m, v)) as [[pk1 c1]|] eqn:Hr; [|done].
    rewrite fmap_cons, not_elem_of_cons in Hnin. destruct Hnin as [Hne Hnin].
    eapply IH; [done| |done].
    apply merge_record_effect in Hr
      as [[-> _]|(j & e0 & e' & Hf & -> & _)]; [done|].
    apply find_Some in Hf as [Hj Hm0].
    rewrite list_lookup_insert_ne; [done|].
    intros ->. by simplify_eq.
Qed.

(** X1.  A merge keeps the catalog's shape: the entries are as many as
    before, in the same places, each with the msgid, the plural msgid and
    the occurrences it had. *)
Theorem merge_keeps_sources po translations po' c' :
  merge po translations = Some (po', c') →
  length po' = length po ∧ Forall2 same_source po po'.
Proof.
  intros Hm%merge_loop_merged. split.
  - symmetry. by eapply Forall2_length.
  - eapply Forall2_impl; [done|]. by intros ?? [? _].
Qed.

(** X2.  A merge changes no entry whose msgid is not a key of the
    mapping. *)
Theorem merge_changes_only_keys po translations po' c' i e :
  merge po translations = Some (po', c') →
  po !! i = Some e →
  msgid e ∉ translations.*1 →
  po' !! i = Some e.
Proof. apply merge_loop_untouched. Qed.

(** X3.  An entry a merge has changed is not fuzzy afterwards, and if its
    [msgstr] changed, the new one is neither empty nor all-whitespace. *)
Theorem merge_changed_entries po translations po' c' i e e' :
  merge po translations = Some (po', c') →
  po !! i = Some e → po' !! i = Some e' → e' ≠ e →
  fuzzy e' = false
  ∧ (msgstr e' ≠ msgstr e → is_empty_translation (msgstr e') = false).
Proof.
  intros Hm%merge_loop_merged Hi Hi' Hne.
  destruct (Forall2_lookup_lr _ _ _ _ _ _ Hm Hi Hi') as [_ [?|[Hf Hms]]]; [done|].
  split; [done|]. intros ?. by destruct Hms.
Qed.

Lemma any_nonempty_Exists l :
  any_nonempty l = true ↔ Exists (λ s, is_empty_translation s = false) l.
Proof.
  unfold any_nonempty. rewrite existsb_exists, Exists_exists.
  split; intros (s & Hin & Hs); exists s.
  - split; [by apply list_elem_of_In|].
    unfold is_empty_translation.
    by destruct (PyStr.truthy s), (PyStr.truthy (PyStr.strip s)).
  - split; [by apply list_elem_of_In|].
    unfold is_empty_translation in Hs.
    by destruct (PyStr.truthy s), (PyStr.truthy (PyStr.strip s)).
Qed.

(** X4.  A list of plural translations with a string that is not blank,
    applied to a plural entry with contiguous indices from which it
    differs at some index, overwrites exactly the indices it provides,
    blank strings included, keeps every other index and [msgstr], clears
    [fuzzy] and counts one update. *)
Theorem plural_update_overwrites po c m l i e j t :
  find po m = Some (i, e) →
  PyStr.truthy (msgid_plural e) = true →
  plural_contiguous e →
  Exists (λ s, is_empty_translation s = false) l →
  l !! j = Some t → msgstr_plural e !! j ≠ Some t →
  ∃ e',
    merge_record po c (m, TDict (Some (MsgstrList l)))
    = Some (<[i := e']> po, incr_updated c)
    ∧ msgstr e' = msgstr e
    ∧ fuzzy e' = false
    ∧ ∀ k, msgstr_plural e' !! k
           = if decide (k < length l) then l !! k else msgstr_plural e !! k.
Proof.
  intros Hf Hp Hcont Hl%any_nonempty_Exists Hj Hne.
  destruct (needs_update_defined (msgstr_plural e) 0 l) as [b Hb].
  { by apply contiguous_below_size. }
  destruct b.
  2:{ exfalso. apply Hne. by apply (needs_update_false _ 0 l Hb j t). }
  exists (apply_plural e l). unfold merge_record.
  rewrite Hf, Hp, Hl, Hb. split_and!; try done.
  intros k. simpl. rewrite assign_from_lookup.
  repeat case_decide; try lia; [|done]. by rewrite Nat.sub_0_r.
Qed.

(** ** What the counters count *)

Lemma absent_same_sources po pk m :
  Forall2 same_source po pk → absent pk m = absent po m.
Proof.
  intros Hs. unfold absent.
  destruct (find pk m) as [[i ek]|] eqn:Hk, (find po m) as [[j e]|] eqn:Ho;
    try done; exfalso.
  - apply find_Some in Hk as [Hi Hm].
    destruct (Forall2_lookup_r _ _ _ _ _ Hs Hi) as (e & He & Hid & _).
    rewrite find_None in Ho. eapply Ho; [by eapply list_elem_of_lookup_2|].
    congruence.
  - apply find_Some in Ho as [Hj Hm].
    destruct (Forall2_lookup_l _ _ _ _ _ Hs Hj) as (ek & Hek & Hid & _).
    rewrite find_None in Hk. eapply Hk; [by eapply list_elem_of_lookup_2|].
    congruence.
Qed.

Lemma merged_same_sources pk pk' :
  Forall2 merged_entry pk pk' → Forall2 same_source pk pk'.
Proof. intros Hm. eapply Forall2_impl; [done|]. by intros ?? [? _]. Qed.

Lemma same_sources_trans po pk pk' :
  Forall2 same_source po pk → Forall2 same_source pk pk' →
  Forall2 same_source po pk'.
Proof.
  apply Forall2_trans. intros e1 e2 e3 (?&?&?) (?&?&?).
  unfold same_source. split_and!; congruence.
Qed.

Lemma merge_record_not_found pk c m v pk' c' :
  merge_record pk c (m, v) = Some (pk', c') →
  not_found_count c'
  = not_found_count c + (if absent pk m && looks_up v then 1 else 0).
Proof.
  unfold merge_record, absent, looks_up.
  repeat case_match; intros; simplify_eq; simpl; lia.
Qed.

Lemma merge_loop_not_found po pk c recs pk' c' :
  Forall2 same_source po pk →
  merge_loop pk c recs = Some (pk', c') →
  not_found_count c'
  = not_found_count c
    + length (filter (λ r, absent po r.1 && looks_up r.2 = true) recs).
Proof.
  revert pk c. induction recs as [|[m v] recs IH]; intros pk c Hs Hm.
  - simpl in Hm. simplify_eq. simpl. lia.
  - rewrite merge_loop_cons in Hm.
    destruct (merge_record pk c (m, v)) as [[pk1 c1]|] eqn:Hr; [|done].
    pose proof (merge_record_not_found _ _ _ _ _ _ Hr) as Hc.
    apply merge_record_merged, merged_same_sources in Hr.
    erewrite (IH pk1 c1); [|by eapply same_sources_trans|done].
    rewrite Hc, (absent_same_sources po pk m Hs).
    destruct (absent po m && looks_up v) eqn:Hb.
    + rewrite filter_cons_True by done. simpl. lia.
    + rewrite filter_cons_False by (simpl; congruence). lia.
Qed.

(** X5.  After a merge, [not_found] is the number of records whose msgid
    has no entry in the catalog as it was loaded, legacy strings that are
    empty or all-whitespace and values that are neither a string nor an
    object not counted. *)
Theorem not_found_counts_absent po translations po' c' :
  merge po translations = Some (po', c') →
  not_found_count c'
  = length (filter (λ r, absent po r.1 && looks_up r.2 = true) translations).
Proof.
  intros Hm. unfold merge in Hm.
  rewrite (merge_loop_not_found po po zero_counters translations po' c'); try done.
  apply Forall_Forall2_diag, Forall_forall. by intros.
Qed.

Lemma filter_length_flip (P P' : nat → Prop)
    `{!∀ i, Decision (P i)} `{!∀ i, Decision (P' i)} l j :
  NoDup l → j ∈ l → ¬ P j → P' j →
  (∀ i, i ≠ j → (P i ↔ P' i)) →
  length (filter P' l) = S (length (filter P l)).
Proof.
  intros Hnd Hj HnP HP' Hiff. induction l as [|x l IH]; [by inversion Hj|].
  apply NoDup_cons in Hnd as [Hx Hnd].
  destruct (decide (x = j)) as [->|Hxj].
  - rewrite filter_cons_True, filter_cons_False by done. simpl. f_equal.
    clear IH Hj. induction l as [|y l IH]; [done|].
    apply not_elem_of_cons in Hx as [Hyj Hx].
    apply NoDup_cons in Hnd as [_ Hnd].
    rewrite !filter_cons. specialize (Hiff y (not_eq_sym Hyj)).
    repeat case_decide; simpl; try tauto; rewrite IH; done.
  - apply elem_of_cons in Hj as [->|Hj]; [done|].
    rewrite !filter_cons. specialize (Hiff x Hxj) as Hx'.
    repeat case_decide; simpl; try tauto; rewrite IH; done.
Qed.

Lemma merge_loop_updated po pk c recs pk' c' :
  NoDup recs.*1 →
  Forall2 same_source po pk →
  (∀ i e, po !! i = Some e → msgid e ∈ recs.*1 → pk !! i = Some e) →
  merge_loop pk c recs = Some (pk', c') →
  updated_count c' + length (changed_positions po pk)
  = updated_count c + length (changed_positions po pk').
Proof.
  revert pk c. induction recs as [|[m v] recs IH]; intros pk c Hnd Hs Hkeep Hm.
  - simpl in Hm. by simplify_eq.
  - rewrite merge_loop_cons in Hm.
    destruct (merge_record pk c (m, v)) as [[pk1 c1]|] eqn:Hr; [|done].
    rewrite fmap_cons in Hnd. apply NoDup_cons in Hnd as [Hnin Hnd].
    pose proof (merge_record_merged _ _ _ _ _ Hr) as Hs1%merged_same_sources.
    apply merge_record_effect in Hr
      as [[-> Hu]|(j & e0 & e' & Hf & -> & -> & Hne & _)].
    + assert (updated_count c' + length (changed_positions po pk)
              = updated_count c1 + length (changed_positions po pk')); [|lia].
      apply IH; try done.
      intros i e Hi Hin. apply Hkeep; [done|]. rewrite fmap_cons. by right.
    + apply find_Some in Hf as [Hj Hid].
      destruct (Forall2_lookup_r _ _ _ _ _ Hs Hj) as (e & He & Hide & _).
      assert (pk !! j = Some e) as Hje.
      { apply Hkeep; [done|]. rewrite fmap_cons. apply elem_of_cons. left.
        simpl. congruence. }
      assert (e0 = e) as -> by congruence.
      assert (length (changed_positions po (<[j := e']> pk))
              = S (length (changed_positions po pk))) as Hlen.
      { unfold changed_positions.
        apply (filter_length_flip _ _ _ j).
        - apply NoDup_seq.
        - apply elem_of_seq. apply lookup_lt_Some in He. lia.
        - intros Hd. apply Hd. congruence.
        - rewrite list_lookup_insert_eq by (by eapply lookup_lt_Some).
          rewrite He. congruence.
        - intros i Hij. by rewrite list_lookup_insert_ne. }
      assert (updated_count c' + length (changed_positions po (<[j := e']> pk))
              = updated_count (incr_updated c)
                + length (changed_positions po pk')) as HI;
        [|rewrite Hlen in HI; simpl in HI; lia].
      apply IH; try done.
      * by eapply same_sources_trans.
      * intros i x Hi Hin.
        destruct (decide (j = i)) as [->|Hji].
        -- exfalso. apply Hnin. simpl.
           assert (x = e) as -> by congruence.
           by rewrite <- Hid.
        -- rewrite list_lookup_insert_ne by done.
           apply Hkeep; [done|]. rewrite fmap_cons. by right.
Qed.

(** X6.  When no msgid occurs twice in the mapping, [updated] is the
    number of entries of the catalog that differ after the merge. *)
Theorem updated_counts_changed_entries po translations po' c' :
  NoDup translations.*1 →
  merge po translations = Some (po', c') →
  updated_count c' = length (changed_positions po po').
Proof.
  intros Hnd Hm. unfold merge in Hm.
  apply (merge_loop_updated po) in Hm; try done.
  - assert (changed_positions po po = []) as Hnil.
    { unfold changed_positions. induction (seq 0 (length po)) as [|i l IH]; [done|].
      by rewrite filter_cons_False by (intros Hd; by apply Hd). }
    rewrite Hnil in Hm. simpl in Hm. lia.
  - apply Forall_Forall2_diag, Forall_forall. by intros.
Qed.

(** ** A merge applies what the mapping holds *)

Lemma merge_loop_app po c recs1 recs2 :
  merge_loop po c (recs1 ++ recs2) =
  match merge_loop po c recs1 with
  | None => None
  | Some (po', c') => merge_loop po' c' recs2
  end.
Proof.
  revert po c. induction recs1 as [|r recs1 IH]; intros po c; [done|].
  simpl. destruct (merge_record po c r) as [[po' c']|]; [apply IH | done].
Qed.

Lemma find_same_sources po pk m i e :
  Forall2 same_source po pk → find po m = Some (i, e) →
  ∃ ek, find pk m = Some (i, ek).
Proof.
  unfold find. intros Hs (Hi & He & Hlt)%list_find_Some.
  destruct (Forall2_lookup_l _ _ _ _ _ Hs Hi) as (ek & Hek & Hid & _).
  exists ek. apply list_find_Some. split_and!; [done|congruence|].
  intros j y Hj Hji.
  destruct (Forall2_lookup_r _ _ _ _ _ Hs Hj) as (x & Hx & Hxid & _).
  rewrite Hxid. by eapply Hlt.
Qed.

(** The state of the loop when it reaches the record of [m]: the entry
    found for [m] in the loaded catalog is still there, unchanged. *)
Lemma merge_loop_reaches po c pre m i e pk ck :
  m ∉ pre.*1 →
  find po m = Some (i, e) →
  merge_loop po c pre = Some (pk, ck) →
  find pk m = Some (i, e).
Proof.
  intros Hnin Hf Hm.
  pose proof (find_Some _ _ _ _ Hf) as [Hi Hid].
  assert (pk !! i = Some e) as Hk.
  { eapply merge_loop_untouched; [done..|]. by rewrite Hid. }
  apply merge_loop_merged, merged_same_sources in Hm.
  destruct (find_same_sources _ _ _ _ _ Hm Hf) as [ek Hfk].
  pose proof (find_Some _ _ _ _ Hfk) as [Hik _]. congruence.
Qed.

(** X7.  When no msgid occurs twice in the mapping, after a merge every
    entry for whose msgid the mapping holds a string that is not blank, in
    the legacy or the structured form, has that string as its [msgstr]. *)
Theorem merge_applies_singular po translations po' c' m v s i e :
  NoDup translations.*1 →
  merge po translations = Some (po', c') →
  (m, v) ∈ translations →
  v = TStr s ∨ v = TDict (Some (MsgstrStr s)) →
  is_empty_translation s = false →
  find po m = Some (i, e) →
  ∃ e', po' !! i = Some e' ∧ msgstr e' = s.
Proof.
  intros Hnd Hm (pre & post & ->)%list_elem_of_split Hv Hs Hf.
  unfold merge in Hm. rewrite merge_loop_app in Hm.
  destruct (merge_loop po zero_counters pre) as [[pk ck]|] eqn:Hpre; [|done].
  rewrite merge_loop_cons in Hm.
  destruct (merge_record pk ck (m, v)) as [[pk1 c1]|] eqn:Hr; [|done].
  rewrite fmap_app, fmap_cons in Hnd. apply NoDup_app in Hnd as (_ & Hpre_post & Hnd).
  apply NoDup_cons in Hnd as [Hpost _].
  assert (m ∉ pre.*1) as Hnpre.
  { intros Hin. eapply Hpre_post; [done|]. left. }
  pose proof (merge_loop_reaches _ _ _ _ _ _ _ _ Hnpre Hf Hpre) as Hfk.
  pose proof (find_Some _ _ _ _ Hfk) as [Hik Hid].
  assert (∃ e', pk1 !! i = Some e' ∧ msgstr e' = s ∧ msgid e' = m)
    as (e' & Hi1 & Hms & Hid').
  { unfold merge_record in Hr. rewrite Hfk in Hr.
    assert (singular_differs e s = false → msgstr e = s) as Hsame.
    { unfold singular_differs. intros Hd.
      destruct (PyStr.truthy (msgstr e)); [|done]. simpl in Hd.
      apply String.eqb_eq. by destruct (String.eqb (msgstr e) s). }
    destruct Hv as [-> | ->]; rewrite Hs in Hr;
      destruct (singular_differs e s) eqn:Hd; simplify_eq.
    - exists (apply_singular e s). split; [|done].
      apply list_lookup_insert_eq. by eapply lookup_lt_Some.
    - exists e. auto.
    - exists (apply_singular e s). split; [|done].
      apply list_lookup_insert_eq. by eapply lookup_lt_Some.
    - exists e. auto. }
  exists e'. split; [|done].
  eapply merge_loop_untouched; [done..|]. by rewrite Hid'.
Qed.

(** X8.  On a catalog whose plural indices are contiguous a merge raises
    nothing for a mapping whose [msgstr] lists hold strings only, which is
    what [MsgstrList] holds: the indexing [entry.msgstr_plural[idx]] never
    fails, and the merge returns a catalog, whose plural indices are
    contiguous again, and the three counters.  A list with an element
    that is not a string is not covered. *)
Theorem merge_returns_contiguous po translations :
  Forall plural_contiguous po →
  ∃ po' c', merge po translations = Some (po', c')
            ∧ Forall plural_contiguous po'.
Proof.
  unfold merge. generalize zero_counters as c. revert po.
  induction translations as [|r rest IH]; intros po c Hpo; [by eexists _, _|].
  rewrite merge_loop_cons.
  destruct (merge_record_returns po c r Hpo) as (po1 & c1 & -> & Hpo1).
  by apply IH.
Qed.

(** ** The merge on a catalog of two entries *)

Lemma plural_contiguous_no_plural e :
  msgstr_plural e = ∅ → plural_contiguous e.
Proof. intros He k j [x Hx]. by rewrite He, lookup_empty in Hx. Qed.

Lemma plural_contiguous_two e s0 s1 :
  msgstr_plural e = {[0 := s0; 1 := s1]} → plural_contiguous e.
Proof.
  intros He k j [x Hx] Hjk. rewrite He in *.
  destruct k as [|[|k]]; [lia| |].
  - assert (j = 0) as -> by lia. rewrite lookup_insert_eq. eauto.
  - rewrite lookup_insert_ne, lookup_singleton_ne in Hx by lia. done.
Qed.

Lemma merge_keeps_sources_witness :
  let e1 := mkPOEntry "Save" "" "" ∅ [("a.py", 3)] true in
  let e2 := mkPOEntry "%d file" "%d files" "" {[0 := ""; 1 := ""]} [] false in
  let po' := [mkPOEntry "Save" "" "Speichern" ∅ [("a.py", 3)] false;
              mkPOEntry "%d file" "%d files" ""
                {[0 := "%d Datei"; 1 := "%d Dateien"]} [] false] in
  length po' = 2 ∧ Forall2 same_source [e1; e2] po'.
Proof.
  intros e1 e2 po'.
  apply (merge_keeps_sources [e1; e2]
           [("Save", TStr "Speichern");
            ("%d file", TDict (Some (MsgstrList ["%d Datei"; "%d Dateien"])));
            ("Open", TDict (Some (MsgstrStr "Offnen")))]
           po' (mkCounters 2 0 1)).
  vm_compute. reflexivity.
Defined.

Lemma merge_changes_only_keys_witness :
  let e1 := mkPOEntry "Save" "" "" ∅ [("a.py", 3)] true in
  let e3 := mkPOEntry "Close" "" "" ∅ [("a.py", 9)] true in
  [mkPOEntry "Save" "" "Speichern" ∅ [("a.py", 3)] false; e3] !! 1 = Some e3.
Proof.
  intros e1 e3.
  apply (merge_changes_only_keys [e1; e3] [("Save", TStr "Speichern")]
           _ (mkCounters 1 0 0) 1 e3).
  - reflexivity.
  - reflexivity.
  - apply (bool_decide_unpack _). vm_compute. exact I.
Defined.

Lemma merge_changed_entries_witness :
  let e' := mkPOEntry "Save" "" "Speichern" ∅ [("a.py", 3)] false in
  fuzzy e' = false ∧ is_empty_translation (msgstr e') = false.
Proof.
  intros e'.
  pose (e := mkPOEntry "Save" "" "" ∅ [("a.py", 3)] true).
  destruct (merge_changed_entries [e] [("Save", TStr "Speichern")] [e']
              (mkCounters 1 0 0) 0 e e') as [Hf Hs];
    [reflexivity | reflexivity | reflexivity | discriminate |].
  split; [exact Hf|]. apply Hs. discriminate.
Defined.

Lemma plural_update_overwrites_witness :
  let e := mkPOEntry "%d file" "%d files" "" {[0 := "%d Datei"; 1 := ""]} [] true in
  ∃ e',
    merge_record [e] zero_counters
      ("%d file", TDict (Some (MsgstrList [""; "%d Dateien"; "%d Dateien"])))
    = Some ([e'], mkCounters 1 0 0)
    ∧ msgstr_plural e' !! 0 = Some ""
    ∧ msgstr_plural e' !! 2 = Some "%d Dateien"
    ∧ fuzzy e' = false.
Proof.
  intros e.
  destruct (plural_update_overwrites [e] zero_counters "%d file"
              [""; "%d Dateien"; "%d Dateien"] 0 e 1 "%d Dateien")
    as (e' & Hm & _ & Hf & Hk).
  - reflexivity.
  - reflexivity.
  - by eapply plural_contiguous_two.
  - apply Exists_cons. right. apply Exists_cons. left. reflexivity.
  - reflexivity.
  - vm_compute. discriminate.
  - exists e'. split; [exact Hm|]. split; [by rewrite Hk|].
    split; [by rewrite Hk|exact Hf].
Defined.

Lemma not_found_counts_absent_witness :
  let po := [mkPOEntry "Save" "" "" ∅ [("a.py", 3)] true] in
  not_found_count (mkCounters 1 1 2)
  = length (filter (λ r, absent po r.1 && looks_up r.2 = true)
              [("Open", TStr "Auf"); ("Save", TStr "Speichern");
               ("ghost", TStr " "); ("Close", TDict None)]).
Proof.
  intros po.
  apply (not_found_counts_absent po _
           [mkPOEntry "Save" "" "Speichern" ∅ [("a.py", 3)] false]).
  reflexivity.
Defined.

Lemma updated_counts_changed_entries_witness :
  let e1 := mkPOEntry "Save" "" "" ∅ [("a.py", 3)] true in
  let e2 := mkPOEntry "Open" "" "Auf" ∅ [] false in
  let e3 := mkPOEntry "Close" "" "" ∅ [] false in
  updated_count (mkCounters 2 1 1)
  = length (changed_positions [e1; e2; e3]
              [mkPOEntry "Save" "" "Speichern" ∅ [("a.py", 3)] false; e2;
               mkPOEntry "Close" "" "Zu" ∅ [] false]).
Proof.
  intros e1 e2 e3.
  apply (updated_counts_changed_entries [e1; e2; e3]
           [("Save", TStr "Speichern"); ("Open", TStr "Auf");
            ("Close", TDict (Some (MsgstrStr "Zu")));
            ("Quit", TStr "Ende"); ("Help", TStr "")]).
  - apply (bool_decide_unpack _). vm_compute. exact I.
  - reflexivity.
Defined.

Lemma merge_applies_singular_witness :
  let po' := [mkPOEntry "Save" "" "Speichern" ∅ [("a.py", 3)] false;
              mkPOEntry "Open" "" "Auf" ∅ [] false] in
  ∃ e', po' !! 1 = Some e' ∧ msgstr e' = "Auf".
Proof.
  intros po'.
  pose (e1 := mkPOEntry "Save" "" "" ∅ [("a.py", 3)] true).
  pose (e2 := mkPOEntry "Open" "" "Offen" ∅ [] false).
  apply (merge_applies_singular [e1; e2]
           [("Save", TStr "Speichern"); ("Open", TDict (Some (MsgstrStr "Auf")))]
           po' (mkCounters 2 0 0) "Open" (TDict (Some (MsgstrStr "Auf"))) "Auf" 1 e2).
  - apply (bool_decide_unpack _). vm_compute. exact I.
  - reflexivity.
  - apply elem_of_cons. right. apply elem_of_cons. by left.
  - by right.
  - reflexivity.
  - reflexivity.
Defined.

Lemma merge_returns_contiguous_witness :
  let e1 := mkPOEntry "Save" "" "" ∅ [("a.py", 3)] true in
  let e2 := mkPOEntry "%d file" "%d files" "" {[0 := ""; 1 := ""]} [] false in
  ∃ po' c',
    merge [e1; e2]
      [("%d file", TDict (Some (MsgstrList ["%d Datei"; "%d Dateien"; "x"])));
       ("Save", TDict (Some (MsgstrList ["Speichern"])));
       ("Open", TOther)]
    = Some (po', c')
    ∧ Forall plural_contiguous po'.
Proof.
  intros e1 e2. apply merge_returns_contiguous.
  repeat constructor.
  - by apply plural_contiguous_no_plural.
  - by eapply plural_contiguous_two.
Defined.

(** ** Loading the translation files *)

Lemma dict_setitem_keys {V} (d : list (string * V)) k v :
  (dict_setitem d k v).*1 = if decide (k ∈ d.*1) then d.*1 else d.*1 ++ [k].
Proof.
  induction d as [|[k' v'] d IH]; cbn [dict_setitem].
  - case_decide as Hk; [by apply elem_of_nil in Hk | done].
  - rewrite !fmap_cons. cbn [fst].
    destruct (String.eqb_spec k' k) as [->|Hne].
    + rewrite fmap_cons. cbn [fst]. by rewrite decide_True by left.
    + rewrite fmap_cons, IH. cbn [fst]. destruct (decide (k ∈ d.*1)).
      * by rewrite decide_True by (by right).
      * rewrite decide_False; [done|].
        intros [?|?]%elem_of_cons; congruence.
Qed.

Lemma dict_setitem_NoDup {V} (d : list (string * V)) k v :
  NoDup d.*1 → NoDup (dict_setitem d k v).*1.
Proof.
  intros Hnd. rewrite dict_setitem_keys. case_decide; [done|].
  apply NoDup_app. split_and!; [done| |apply NoDup_singleton].
  by intros x Hx ->%list_elem_of_singleton.
Qed.

Lemma dict_get_setitem {V} (d : list (string * V)) k v k' :
  dict_get (dict_setitem d k v) k'
  = if decide (k = k') then Some v else dict_get d k'.
Proof.
  induction d as [|[k0 v0] d IH]; simpl.
  - destruct (String.eqb_spec k k'); by case_decide.
  - destruct (String.eqb_spec k0 k) as [->|Hne]; simpl.
    + destruct (String.eqb_spec k k'); by case_decide.
    + destruct (String.eqb_spec k0 k') as [->|]; [by rewrite decide_False|].
      apply IH.
Qed.

Lemma dict_get_app {V} (d1 d2 : list (string * V)) k :
  dict_get (d1 ++ d2) k
  = match dict_get d1 k with Some v => Some v | None => dict_get d2 k end.
Proof.
  induction d1 as [|[k0 v0] d1 IH]; simpl; [done|].
  by destruct (String.eqb k0 k).
Qed.

Lemma dict_update_NoDup {V} (d data : list (string * V)) :
  NoDup d.*1 → NoDup (dict_update d data).*1.
Proof.
  unfold dict_update. revert d.
  induction data as [|[k v] data IH]; intros d Hd; [done|].
  simpl. by apply IH, dict_setitem_NoDup.
Qed.

Lemma dict_get_update {V} (d data : list (string * V)) k :
  dict_get (dict_update d data) k
  = match dict_get (rev data) k with
    | Some v => Some v
    | None => dict_get d k
    end.
Proof.
  unfold dict_update. revert d.
  induction data as [|[k0 v0] data IH]; intros d; [done|].
  simpl. rewrite IH, dict_get_app, dict_get_setitem. simpl.
  destruct (dict_get (rev data) k); [done|].
  destruct (String.eqb_spec k0 k); by case_decide.
Qed.

Lemma load_translations_snoc read_json files json_file :
  load_translations read_json (files ++ [json_file])
  = match read_json json_file with
    | Some data => dict_update (load_translations read_json files) data
    | None => load_translations read_json files
    end.
Proof. unfold load_translations. by rewrite fold_left_app. Qed.

Lemma load_translations_keys_NoDup read_json files :
  NoDup (load_translations read_json files).*1.
Proof.
  induction files as [|f files IH] using rev_ind; [constructor|].
  rewrite load_translations_snoc.
  destruct (read_json f) as [data|]; [|done]. by apply dict_update_NoDup.
Qed.

(** X9.  Whatever the files hold, the mapping built from them has no
    msgid twice, and the value of a msgid is its value in the last of the
    files that exists and has it; a path that does not exist adds
    nothing. *)
Theorem load_translations_last_wins read_json translations_files :
  NoDup (load_translations read_json translations_files).*1
  ∧ ∀ k, dict_get (load_translations read_json translations_files) k
         = last_binding read_json (rev translations_files) k.
Proof.
  split; [apply load_translations_keys_NoDup|].
  induction translations_files as [|f files IH] using rev_ind; [done|].
  intros k. rewrite load_translations_snoc, rev_app_distr. simpl.
  destruct (read_json f) as [data|]; [|done].
  by rewrite dict_get_update, IH.
Qed.

(** X10.  Loading the same translation files and merging them again into
    the catalog object the first merge has left in memory counts no
    update and gives the same catalog, whatever the files hold.  The
    catalog of the second merge is the one the first merge returned, not
    one read back from the file that polib has written. *)
Theorem load_merge_settles read_json translations_files po po1 c1 :
  update_run read_json translations_files po = Some (po1, c1) →
  ∃ c2, update_run read_json translations_files po1 = Some (po1, c2)
        ∧ updated_count c2 = 0.
Proof.
  unfold update_run, merge. intros Hm.
  apply merge_loop_settles in Hm;
    [|apply (load_translations_keys_NoDup read_json translations_files)].
  destruct (merge_loop_noops po1 zero_counters _ Hm) as (c2 & H2 & Hu).
  by exists c2.
Qed.

Lemma load_merge_settles_witness :
  let read_json := λ f : string,
    if String.eqb f "a.json"
    then Some [("Save", TStr "Sichern"); ("Open", TStr "Auf")]
    else if String.eqb f "b.json"
    then Some [("Save", TStr "Speichern")]
    else None in
  let files := ["a.json"; "missing.json"; "b.json"] in
  let po1 := [mkPOEntry "Save" "" "Speichern" ∅ [("a.py", 3)] false] in
  ∃ c2, update_run read_json files po1 = Some (po1, c2) ∧ updated_count c2 = 0.
Proof.
  intros read_json files po1.
  apply (load_merge_settles read_json files
           [mkPOEntry "Save" "" "" ∅ [("a.py", 3)] true] po1 (mkCounters 1 0 1)).
  reflexivity.
Defined.

(** ** The path [compile.run] writes to *)

Lemma prefix_app_inv a s :
  String.prefix a s = true → ∃ b, s = a +:+ b.
Proof.
  revert s. induction a as [|c a IH]; intros s Hp; [by exists s|].
  destruct s as [|c' s]; [done|]. simpl in Hp.
  destruct (ascii_dec c c') as [->|]; [|done].
  destruct (IH s Hp) as [b ->]. by exists b.
Qed.

Lemma replace_no_occurrence old new s :
  (∀ a b, s ≠ a +:+ old +:+ b) → PyStr.replace old new s = s.
Proof.
  unfold PyStr.replace. induction s as [|c s IH]; intros Hno; [done|].
  cbn [PyStr.replace_from].
  destruct (String.prefix old (String c s)) eqn:Hp.
  - apply prefix_app_inv in Hp as [b Hb]. by destruct (Hno EmptyString b).
  - f_equal. apply IH. intros a b ->. by apply (Hno (String c a) b).
Qed.

(** X11.  When [.po] occurs nowhere in the path given to the compile
    command, the path of the binary catalog is the path itself: the
    command writes the binary catalog over the file it has read. *)
Theorem compile_mo_file_path_without_po po_file :
  (∀ a b, po_file ≠ a +:+ ".po" +:+ b) →
  compile_mo_file_path po_file = po_file.
Proof. apply replace_no_occurrence. Qed.

Lemma compile_mo_file_path_without_po_witness :
  compile_mo_file_path "messages" = "messages".
Proof.
  apply compile_mo_file_path_without_po. intros a b Heq.
  destruct a as [|c1 a]; [done|]. injection Heq as <- Heq.
  repeat (destruct a as [|? a]; [done|]; injection Heq as <- Heq).
  destruct a; done.
Defined.

(** X12.  For a path that ends in [.po] with no other [.po] in it, the
    compile command writes the binary catalog beside the textual one: the
    same path with [.mo] for [.po]. *)
Theorem compile_mo_file_path_single_po stem :
  (∀ a b, stem ≠ a +:+ ".po" +:+ b) →
  compile_mo_file_path (stem +:+ ".po") = stem +:+ ".mo".
Proof.
  unfold compile_mo_file_path, PyStr.replace.
  induction stem as [|c stem IH]; intros Hno; [reflexivity|].
  rewrite !string_app_cons. cbn [PyStr.replace_from].
  destruct (String.prefix ".po" (String c (stem +:+ ".po"))) eqn:Hp.
  - exfalso. cbn [String.prefix] in Hp.
    destruct (ascii_dec "." c) as [<-|]; [|done].
    destruct stem as [|c2 stem]; [by vm_compute in Hp|].
    rewrite string_app_cons in Hp. cbn [String.prefix] in Hp.
    destruct (ascii_dec "p" c2) as [<-|]; [|done].
    destruct stem as [|c3 stem]; [by vm_compute in Hp|].
    rewrite string_app_cons in Hp. cbn [String.prefix] in Hp.
    destruct (ascii_dec "o" c3) as [<-|]; [|done].
    by apply (Hno EmptyString stem).
  - f_equal. apply IH. intros a b ->. by apply (Hno (String c a) b).
Qed.

Lemma compile_mo_file_path_single_po_witness :
  compile_mo_file_path ("django" +:+ ".po") = "django" +:+ ".mo".
Proof.
  apply compile_mo_file_path_single_po. intros a b Heq.
  destruct a as [|c1 a]; [by destruct b|]. injection Heq as <- Heq.
  repeat (destruct a as [|? a]; [by destruct b|]; injection Heq as <- Heq).
  destruct a; done.
Defined.

(** ** What the extraction commands put out *)

Lemma substring_full s : String.substring 0 (String.length s) s = s.
Proof. induction s as [|c s IH]; simpl; [done | by rewrite IH]. Qed.

Lemma substring_app_suffix pre s m :
  String.substring (String.length pre) m (pre +:+ s) = String.substring 0 m s.
Proof.
  induction pre as [|c pre IH]; [done|]. rewrite string_app_cons. apply IH.
Qed.

Lemma substring_split s a :
  a ≤ String.length s →
  s = String.substring 0 a s +:+ String.substring a (String.length s - a) s.
Proof.
  revert a. induction s as [|c s IH]; intros a Ha.
  - destruct a; [done | simpl in Ha; lia].
  - destruct a as [|a].
    + simpl. by rewrite substring_full.
    + simpl in *. rewrite string_app_cons. f_equal. apply IH. lia.
Qed.

Lemma endswith_iff s suffix :
  PyStr.endswith s suffix = true ↔ ∃ pre, s = pre +:+ suffix.
Proof.
  unfold PyStr.endswith. split.
  - intros [Hle%Nat.leb_le Heq%String.eqb_eq]%andb_prop.
    exists (String.substring 0 (String.length s - String.length suffix) s).
    pose proof (substring_split s (String.length s - String.length suffix))
      as Hsplit.
    replace (String.length s - (String.length s - String.length suffix))
      with (String.length suffix) in Hsplit by lia.
    rewrite Heq in Hsplit. apply Hsplit. lia.
  - intros [pre ->]. rewrite string_length_app. apply andb_true_intro. split.
    + apply Nat.leb_le. lia.
    + apply String.eqb_eq.
      replace (String.length pre + String.length suffix - String.length suffix)
        with (String.length pre) by lia.
      by rewrite substring_app_suffix, substring_full.
Qed.

Lemma has_html_source_iff occs :
  has_html_source occs = true
  ↔ ∃ file_path n pre, (file_path, n) ∈ occs ∧ file_path = pre +:+ ".html".
Proof.
  induction occs as [|[f n] occs IH]; simpl.
  - split; [done|]. by intros (? & ? & ? & ?%elem_of_nil & _).
  - destruct (PyStr.endswith f ".html") eqn:He.
    + split; [|done]. intros _. apply endswith_iff in He as [pre ->].
      exists (pre +:+ ".html"), n, pre. split; [left | done].
    + rewrite IH. split.
      * intros (f' & n' & pre & Hin & ->). exists (pre +:+ ".html"), n', pre.
        split; [by right | done].
      * intros (f' & n' & pre & Hin & ->).
        apply elem_of_cons in Hin as [Heq|Hin].
        -- simplify_eq. assert (PyStr.endswith (pre +:+ ".html") ".html" = true)
             by (apply endswith_iff; eauto). congruence.
        -- eauto 6.
Qed.

Lemma fold_candidates_elem (cand : POEntry → bool)
    (step : list ExchangeRecord → POEntry → list ExchangeRecord) l ts m :
  (∀ ts e, step ts e
           = if cand e then append_if_new ts (entry_dict (msgid e) e) else ts) →
  m ∈ x_msgid <$> fold_left step l ts
  ↔ m ∈ x_msgid <$> ts ∨ ∃ e, e ∈ l ∧ cand e = true ∧ msgid e = m.
Proof.
  intros Hstep. revert ts. induction l as [|e l IH]; intros ts; simpl.
  - split; [by left|]. intros [?|(? & ?%elem_of_nil & _)]; done.
  - rewrite IH, Hstep. destruct (cand e) eqn:Hc.
    + split.
      * intros [Hin|(e' & He' & Hc' & <-)].
        -- apply list_elem_of_fmap in Hin as (r & -> & Hr).
           apply append_if_new_elem in Hr as [Hr| ->].
           ++ left. by apply list_elem_of_fmap_2.
           ++ right. exists e. split; [left | done].
        -- right. exists e'. split; [by right | done].
      * intros [Hin|(e' & He' & Hc' & <-)].
        -- left. by apply append_if_new_keeps.
        -- apply elem_of_cons in He' as [->|He'].
           ++ left. apply (append_if_new_msgid _ (entry_dict (msgid e) e)).
           ++ right. eauto.
    + split.
      * intros [?|(e' & He' & Hc' & <-)]; [by left|].
        right. exists e'. split; [by right | done].
      * intros [?|(e' & He' & Hc' & <-)]; [by left|].
        apply elem_of_cons in He' as [->|He']; [congruence|]. right. eauto.
Qed.

Lemma fold_candidates_unique (cand : POEntry → bool)
    (step : list ExchangeRecord → POEntry → list ExchangeRecord) l ts :
  (∀ ts e, step ts e
           = if cand e then append_if_new ts (entry_dict (msgid e) e) else ts) →
  NoDup (msgid <$> l) →
  (∀ m, m ∈ x_msgid <$> ts → m ∉ msgid <$> l) →
  fold_left step l ts
  = ts ++ ((λ e, entry_dict (msgid e) e) <$> filter (λ e, cand e = true) l).
Proof.
  intros Hstep. revert ts. induction l as [|e l IH]; intros ts Hnd Hdis; simpl.
  - by rewrite app_nil_r.
  - rewrite fmap_cons in Hnd. apply NoDup_cons in Hnd as [He Hnd].
    rewrite Hstep. destruct (cand e) eqn:Hc.
    + rewrite filter_cons_True by done.
      assert (append_if_new ts (entry_dict (msgid e) e)
              = ts ++ [entry_dict (msgid e) e]) as ->.
      { unfold append_if_new.
        destruct (already_added _ ts) eqn:Ha; [|done].
        apply already_added_elem in Ha. simpl in Ha.
        destruct (Hdis _ Ha). rewrite fmap_cons. left. }
      rewrite IH; [by rewrite <- app_assoc|done|].
      intros m Hm Hin. rewrite fmap_app in Hm.
      apply elem_of_app in Hm as [Hm|Hm%list_elem_of_singleton].
      * apply (Hdis m Hm). rewrite fmap_cons. by right.
      * simpl in Hm. by subst m.
    + rewrite filter_cons_False by congruence.
      apply IH; [done|]. intros m Hm Hin. apply (Hdis m Hm).
      rewrite fmap_cons. by right.
Qed.

Section ExtractionOutput.
Context `{Polib} `{Interp} `{Pathlib}.

Lemma html_step_candidate ts e :
  html_step ts e
  = if html_candidate e then append_if_new ts (entry_dict (msgid e) e) else ts.
Proof.
  unfold html_step, html_candidate.
  by destruct (translated e), (has_html_source (occurrences e)).
Qed.

Lemma scan_occurrences_Some mod_root occs :
  is_Some (scan_occurrences mod_root occs)
  ↔ existsb (λ occ, occurrence_imported mod_root occ.1) occs = true.
Proof.
  induction occs as [|[f n] occs IH]; simpl.
  - split; [by intros [??] | done].
  - unfold occurrence_imported at 1. simpl.
    destruct (path_exists (resolve_occurrence mod_root f)); simpl; [|done].
    destruct (module_imported _); simpl; [|done].
    split; [done | eauto].
Qed.

Lemma modules_step_candidate mod_root ts e :
  modules_step mod_root ts e
  = if modules_candidate mod_root e
    then append_if_new ts (entry_dict (msgid e) e) else ts.
Proof.
  unfold modules_step, modules_candidate.
  destruct (translated e); [done|]. simpl.
  pose proof (scan_occurrences_Some mod_root (occurrences e)) as Hs.
  destruct (scan_occurrences mod_root (occurrences e)) as [name|].
  - by rewrite (proj1 Hs) by eauto.
  - destruct (existsb _ _); [|done]. by destruct (proj2 Hs).
Qed.

(** X13.  The msgids the template command puts out are those of the
    entries that are not translated and have an occurrence whose path ends
    in [.html]. *)
Theorem extract_html_output po m :
  m ∈ x_msgid <$> extract_html po
  ↔ ∃ e, e ∈ po ∧ msgid e = m ∧ translated e = false
         ∧ ∃ file_path n pre,
             (file_path, n) ∈ occurrences e ∧ file_path = pre +:+ ".html".
Proof.
  unfold extract_html.
  rewrite (fold_candidates_elem html_candidate) by apply html_step_candidate.
  rewrite fmap_nil. split.
  - intros [?%elem_of_nil|(e & He & Hc & Hm)]; [done|].
    unfold html_candidate in Hc. apply andb_prop in Hc as [Ht Hs].
    exists e. split_and!; [done..| |by apply has_html_source_iff].
    by destruct (translated e).
  - intros (e & He & Hm & Ht & Hs). right. exists e. split_and!; [done| |done].
    unfold html_candidate. rewrite Ht. simpl. by apply has_html_source_iff.
Qed.

(** X14.  The msgids the module command puts out are those of the entries
    that are not translated and have an occurrence whose resolved file
    exists and whose module is imported. *)
Theorem extract_modules_output mod_root po m :
  m ∈ x_msgid <$> extract_modules mod_root po
  ↔ ∃ e, e ∈ po ∧ msgid e = m ∧ translated e = false
         ∧ ∃ file_path n,
             (file_path, n) ∈ occurrences e
             ∧ path_exists (resolve_occurrence mod_root file_path) = true
             ∧ module_imported
                 (module_name_of mod_root
                    (resolve_occurrence mod_root file_path)) = true.
Proof.
  unfold extract_modules.
  rewrite (fold_candidates_elem (modules_candidate mod_root))
    by apply modules_step_candidate.
  rewrite fmap_nil.
  assert (∀ e, modules_candidate mod_root e = true
               ↔ translated e = false
                 ∧ ∃ file_path n,
                     (file_path, n) ∈ occurrences e
                     ∧ path_exists (resolve_occurrence mod_root file_path) = true
                     ∧ module_imported
                         (module_name_of mod_root
                            (resolve_occurrence mod_root file_path)) = true)
    as Hcand.
  { intros e. unfold modules_candidate.
    rewrite andb_true_iff, negb_true_iff, existsb_exists.
    unfold occurrence_imported. split.
    - intros [Ht ([f n] & Hin%list_elem_of_In & [??]%andb_prop)]. eauto 10.
    - intros [Ht (f & n & Hin & He & Hi)]. split; [done|].
      exists (f, n). split; [by apply list_elem_of_In|].
      simpl. by rewrite He, Hi. }
  split.
  - intros [?%elem_of_nil|(e & He & Hc%Hcand & Hm)]; [done|].
    exists e. tauto.
  - intros (e & He & Hm & Hc). right. exists e. split_and!; [done| |done].
    by apply Hcand.
Qed.

(** X15.  In a catalog whose msgids are unique, the template command and
    the module command put out one record for each entry they take, in
    the order of the catalog. *)
Theorem extraction_in_catalog_order mod_root po :
  NoDup (msgid <$> po) →
  extract_html po
  = (λ e, entry_dict (msgid e) e) <$> filter (λ e, html_candidate e = true) po
  ∧ extract_modules mod_root po
    = (λ e, entry_dict (msgid e) e)
        <$> filter (λ e, modules_candidate mod_root e = true) po.
Proof.
  intros Hnd. split.
  - unfold extract_html.
    rewrite (fold_candidates_unique html_candidate);
      [done|apply html_step_candidate|done|].
    by intros m ?%elem_of_nil.
  - unfold extract_modules.
    rewrite (fold_candidates_unique (modules_candidate mod_root));
      [done|apply modules_step_candidate|done|].
    by intros m ?%elem_of_nil.
Qed.

End ExtractionOutput.

(** ** Imported modules and resolved keys *)

Section Reachability.
Context `{Polib} `{Interp}.

Lemma walk_attributes_iff obj rest :
  walk_attributes obj rest = true
  ↔ rest ≠ [] ∧ is_Some (attr_chain obj rest).
Proof.
  revert obj. induction rest as [|part rest IH]; intros obj; simpl.
  - split; [done | by intros [? _]].
  - destruct (py_getattr obj part) as [obj'|].
    + destruct rest as [|part' rest].
      * simpl. split; [eauto | done].
      * rewrite IH. split; intros [_ ?]; done.
    + split; [done|]. by intros [_ [??]].
Qed.

Lemma parent_package_imported_iff parts n :
  parent_package_imported parts n = true
  ↔ ∃ i obj, 0 < i ≤ n
             ∧ sys_modules !! PyStr.join "." (take i parts) = Some obj
             ∧ walk_attributes obj (drop i parts) = true.
Proof.
  induction n as [|n IH]; simpl.
  - split; [done|]. intros (i & ? & ? & _). lia.
  - destruct (sys_modules !! PyStr.join "." (take (S n) parts)) as [obj|] eqn:Hm.
    + destruct (walk_attributes obj (drop (S n) parts)) eqn:Hw.
      * split; [|done]. intros _. exists (S n), obj. split_and!; [lia..|done|done].
      * rewrite IH. split.
        -- intros (i & o & ? & ? & ?). exists i, o. split_and!; [lia..|done|done].
        -- intros (i & o & Hi & Hl & Hwo).
           destruct (decide (i = S n)) as [->|]; [congruence|].
           exists i, o. split_and!; [lia..|done|done].
    + rewrite IH. split.
      * intros (i & o & ? & ? & ?). exists i, o. split_and!; [lia..|done|done].
      * intros (i & o & Hi & Hl & Hwo).
        destruct (decide (i = S n)) as [->|]; [congruence|].
        exists i, o. split_and!; [lia..|done|done].
Qed.

(** X16.  The module command takes a module name as imported exactly when
    the name is a key of [sys.modules], or a proper prefix of its dotted
    segments is one and every remaining segment is found, one after the
    other, as an attribute of the object reached so far. *)
Theorem module_imported_iff module_name :
  let parts := PyStr.split "." module_name in
  module_imported module_name = true
  ↔ is_Some (sys_modules !! module_name)
    ∨ ∃ i obj, 0 < i < length parts
               ∧ sys_modules !! PyStr.join "." (take i parts) = Some obj
               ∧ is_Some (attr_chain obj (drop i parts)).
Proof.
  intros parts. unfold module_imported. fold parts.
  destruct (sys_modules !! module_name) as [m|] eqn:Hm.
  { split; [eauto | done]. }
  rewrite parent_package_imported_iff. split.
  - intros (i & obj & Hi & Hl & [Hne Hc]%walk_attributes_iff). right.
    exists i, obj. split_and!; [lia| |done..].
    destruct (decide (i < length parts)); [done|].
    rewrite drop_ge in Hne by lia. done.
  - intros [[? ?]|(i & obj & Hi & Hl & Hc)]; [done|].
    exists i, obj. split_and!; [lia..|done|].
    apply walk_attributes_iff. split; [|done].
    intros Hnil. apply (f_equal length) in Hnil.
    rewrite length_drop in Hnil. simpl in Hnil. lia.
Qed.

(** X17.  A key of the help texts resolves only if its first segment is
    itself a key of [sys.modules]: a later prefix that is loaded does not
    help when the first one is not. *)
Theorem resolve_key_needs_first_segment k first others :
  PyStr.split "." k = first :: others →
  is_not_None (resolve_key k) = true →
  is_Some (sys_modules !! first).
Proof.
  unfold resolve_key. intros -> Hr. simpl in Hr.
  change (PyStr.join "." [first]) with first in Hr.
  destruct (sys_modules !! first); [eauto | done].
Qed.

Lemma helptexts_fold_elem po help_texts ts m :
  m ∈ x_msgid <$> fold_left (helptexts_step po) help_texts ts
  ↔ m ∈ x_msgid <$> ts
    ∨ ∃ k i e, (k, m) ∈ help_texts ∧ is_not_None (resolve_key k) = true
               ∧ find po m = Some (i, e) ∧ translated e = false.
Proof.
  revert ts. induction help_texts as [|[k s] l IH]; intros ts; simpl.
  - split; [by left|]. intros [?|(? & ? & ? & ?%elem_of_nil & _)]; done.
  - rewrite IH. clear IH.
    assert ((∃ k0 i e, (k0, m) ∈ (k, s) :: l
                       ∧ is_not_None (resolve_key k0) = true
                       ∧ find po m = Some (i, e) ∧ translated e = false)
            ↔ (s = m ∧ is_not_None (resolve_key k) = true
               ∧ ∃ i e, find po m = Some (i, e) ∧ translated e = false)
              ∨ ∃ k0 i e, (k0, m) ∈ l ∧ is_not_None (resolve_key k0) = true
                          ∧ find po m = Some (i, e) ∧ translated e = false)
      as ->.
    { split.
      - intros (k0 & i & e & [Heq|Hin]%elem_of_cons & ? & ? & ?).
        + simplify_eq. left. eauto 10.
        + right. eauto 10.
      - intros [(-> & ? & i & e & ? & ?)|(k0 & i & e & ? & ?)].
        + exists k, i, e. split; [left | done].
        + exists k0, i, e. split; [by right | done]. }
    destruct (is_not_None (resolve_key k)) eqn:Hk.
    2:{ split; [tauto|]. intros [?|[(_ & ? & _)|?]]; [tauto|done|tauto]. }
    destruct (find po s) as [[i e]|] eqn:Hf.
    2:{ split; [tauto|].
        intros [?|[(-> & _ & i' & e' & Hf' & _)|?]]; [tauto|congruence|tauto]. }
    destruct (translated e) eqn:Ht; cbn [negb].
    { split; [tauto|].
      intros [?|[(-> & _ & i' & e' & Hf' & Ht')|?]]; [tauto| |tauto].
      congruence. }
    split.
    + intros [Hin|?]; [|tauto].
      apply list_elem_of_fmap in Hin as (r & -> & Hr).
      apply append_if_new_elem in Hr as [Hr| ->].
      * left. by apply list_elem_of_fmap_2.
      * right. left. simpl. eauto 10.
    + intros [Hin|[(-> & _)|?]]; [| |tauto].
      * left. by apply append_if_new_keeps.
      * left. apply (append_if_new_msgid _ (entry_dict m e)).
Qed.

Lemma helptexts_fold_order po help_texts ts :
  ∃ ts', fold_left (helptexts_step po) help_texts ts = ts ++ ts'
         ∧ x_msgid <$> ts' `sublist_of` help_texts.*2.
Proof.
  revert ts. induction help_texts as [|[k s] l IH]; intros ts; cbn [fold_left].
  - exists []. by rewrite app_nil_r.
  - assert (helptexts_step po ts (k, s) = ts
            ∨ ∃ d, helptexts_step po ts (k, s) = ts ++ [d] ∧ x_msgid d = s)
      as [->|(d & -> & Hd)].
    { unfold helptexts_step, append_if_new.
      repeat case_match; eauto. }
    + destruct (IH ts) as (ts' & -> & Hsub). exists ts'. split; [done|].
      by apply sublist_cons.
    + destruct (IH (ts ++ [d])) as (ts' & -> & Hsub). exists (d :: ts').
      split; [by rewrite <- app_assoc|].
      rewrite fmap_cons, Hd. by apply sublist_skip.
Qed.

(** X18.  The msgids the help-text command puts out are the help texts of
    the keys that resolve and whose text is the msgid of an entry that is
    not translated; they come in the order of the help-text keys. *)
Theorem extract_helptexts_output po help_texts :
  (∀ m, m ∈ x_msgid <$> extract_helptexts po help_texts
        ↔ ∃ k i e, (k, m) ∈ help_texts ∧ is_not_None (resolve_key k) = true
                   ∧ find po m = Some (i, e) ∧ translated e = false)
  ∧ x_msgid <$> extract_helptexts po help_texts `sublist_of` help_texts.*2.
Proof.
  split.
  - intros m. unfold extract_helptexts. rewrite helptexts_fold_elem.
    rewrite fmap_nil. split; [|by right].
    by intros [?%elem_of_nil|?].
  - unfold extract_helptexts.
    by destruct (helptexts_fold_order po help_texts []) as (ts' & -> & Hsub).
Qed.

End Reachability.

(** ** The extraction commands on a small site *)

Lemma extraction_in_catalog_order_witness :
  let interp := table_interp [("pkg", PyObj "pkg")] [("pkg", "views", PyObj "v")] in
  let paths := table_pathlib ["/srv/site/pkg/views.py"] in
  let e1 := mkPOEntry "Save" "" "" ∅ [("pkg/page.html", 3)] true in
  let e2 := mkPOEntry "Open" "" "Auf" ∅ [("pkg/page.html", 5)] false in
  let e3 := mkPOEntry "%d file" "%d files" "" {[0 := ""; 1 := ""]}
              [("pkg/views.py", 8)] false in
  @extract_html spec_polib [e1; e2; e3]
  = (λ e, entry_dict (msgid e) e)
      <$> filter (λ e, @html_candidate spec_polib e = true) [e1; e2; e3]
  ∧ @extract_modules spec_polib interp paths "/srv/site" [e1; e2; e3]
    = (λ e, entry_dict (msgid e) e)
        <$> filter (λ e, @modules_candidate spec_polib interp paths "/srv/site" e
                         = true) [e1; e2; e3].
Proof.
  intros interp paths e1 e2 e3.
  apply (@extraction_in_catalog_order spec_polib interp paths "/srv/site"
           [e1; e2; e3]).
  apply (bool_decide_unpack _). vm_compute. exact I.
Defined.

Lemma resolve_key_needs_first_segment_witness :
  let interp := table_interp [("pkg", PyObj "pkg")] [("pkg", "views", PyObj "v")] in
  is_Some (@sys_modules interp !! "pkg").
Proof.
  intros interp.
  apply (@resolve_key_needs_first_segment interp "pkg.views" "pkg" ["views"]);
    reflexivity.
Defined.

(** ** The translate command: batches and code fences *)

Lemma concat_chunks {A} (lines : list A) step c :
  length lines ≤ c * step →
  concat ((λ i, take step (drop i lines)) <$> ((λ j, j * step) <$> seq 0 c))
  = lines.
Proof.
  revert lines. induction c as [|c IH]; intros lines Hlen.
  - simpl in *. destruct lines; [done | simpl in Hlen; lia].
  - cbn [seq]. rewrite !fmap_cons. cbn [concat]. rewrite Nat.mul_0_l, drop_0.
    rewrite <- seq_shift, <- !list_fmap_compose.
    trans (take step lines ++ drop step lines); [|apply take_drop].
    f_equal. etrans; [|apply (IH (drop step lines))].
    + f_equal. rewrite <- !list_fmap_compose.
      apply list_fmap_ext. intros _ j _. simpl.
      by rewrite drop_drop.
    + rewrite length_drop. lia.
Qed.

(** X19.  With a positive batch size the batches of the translate command
    are the lines, each exactly once and in their order, cut into pieces
    that are not empty and have at most [batch_size] lines. *)
Theorem batches_partition {A} (lines : list A) batch_size :
  (0 < batch_size)%Z →
  ∃ bs, batches lines batch_size = Some bs
        ∧ concat bs = lines
        ∧ Forall (λ b, 0 < length b ≤ Z.to_nat batch_size) bs.
Proof.
  intros Hpos. unfold batches, batch_starts.
  destruct (Z.eqb_spec batch_size 0) as [|_]; [lia|].
  destruct (Z.ltb_spec batch_size 0) as [|_]; [lia|].
  set (step := Z.to_nat batch_size).
  assert (0 < step) as Hstep by (unfold step; lia).
  set (c := (length lines + step - 1) / step).
  assert (length lines ≤ c * step ∧ (∀ j, j < c → j * step < length lines))
    as [Hcover Hstart].
  { unfold c.
    pose proof (Nat.div_mod_eq (length lines + step - 1) step) as Hdm.
    pose proof (Nat.mod_upper_bound (length lines + step - 1) step) as Hmod.
    split; [nia|]. intros j Hj. nia. }
  eexists. split; [reflexivity|]. split; [by apply concat_chunks|].
  apply Forall_forall. intros b (i & -> & (j & -> & Hj%elem_of_seq)%list_elem_of_fmap)%list_elem_of_fmap.
  rewrite length_take, length_drop. specialize (Hstart j). lia.
Qed.

Lemma batches_partition_witness :
  batches ["Save"; "Open"; "Close"; "Print"; "Quit"] 2
  = Some [["Save"; "Open"]; ["Close"; "Print"]; ["Quit"]].
Proof.
  destruct (batches_partition ["Save"; "Open"; "Close"; "Print"; "Quit"] 2)
    as (bs & Hb & _); [lia|].
  rewrite Hb. vm_compute in Hb. by symmetry.
Defined.

Lemma py_split_from_nonempty sep skip s : py_split_from sep skip s ≠ [].
Proof.
  revert skip. induction s as [|c s IH]; intros skip; [done|].
  cbn [py_split_from]. destruct skip; [|apply IH].
  destruct (String.prefix sep (String c s)); [done|].
  by destruct (py_split_from sep 0 s).
Qed.

Lemma prefix_app a b : String.prefix a (a +:+ b) = true.
Proof.
  induction a as [|c a IH]; [by destruct b|].
  rewrite string_app_cons. cbn [String.prefix].
  by destruct (ascii_dec c c).
Qed.

Lemma py_split_fence_head rest :
  py_split "```" ("```" +:+ rest) = EmptyString :: py_split "```" rest.
Proof.
  unfold py_split. pose proof (prefix_app "```" rest) as Hp.
  change ("```" +:+ rest) with (String "`" (String "`" (String "`" rest))) in *.
  cbn [py_split_from]. by rewrite Hp.
Qed.

Lemma py_split_until_fence a rest :
  Forall (λ c, c ≠ "`"%char) (list_ascii_of_string a) →
  py_split "```" (a +:+ "```" +:+ rest) = a :: py_split "```" rest.
Proof.
  induction a as [|c a IH]; intros Ha.
  - apply py_split_fence_head.
  - unfold py_split in *. simpl in Ha. apply Forall_cons in Ha as [Hc Ha].
    rewrite string_app_cons. cbn [py_split_from String.prefix].
    destruct (ascii_dec "`" c) as [<-|]; [done|].
    by rewrite IH.
Qed.

Lemma lstrip_chars_app a b c :
  PyStr.isspace c = false →
  ∃ a', PyStr.lstrip_chars (a ++ c :: b) = a' ++ c :: b.
Proof.
  intros Hc. induction a as [|x a [a' IH]]; simpl.
  - exists []. by rewrite Hc.
  - destruct (PyStr.isspace x); [by exists a' | by exists (x :: a)].
Qed.

Lemma string_of_list_ascii_app l1 l2 :
  string_of_list_ascii (l1 ++ l2)
  = string_of_list_ascii l1 +:+ string_of_list_ascii l2.
Proof.
  induction l1 as [|c l1 IH]; [done|]. simpl.
  by rewrite string_app_cons, IH.
Qed.

(** Stripping a text that starts with a backtick and has a backtick
    before [tail] keeps everything up to that backtick. *)
Lemma strip_keeps_fenced p tail :
  ∃ tail', PyStr.strip (("`" +:+ p +:+ "`") +:+ tail)
           = ("`" +:+ p +:+ "`") +:+ tail'.
Proof.
  set (P := "`" +:+ p +:+ "`").
  assert (∃ l, list_ascii_of_string (P +:+ tail) = "`"%char :: l) as [l Hl].
  { unfold P. change (("`" +:+ p +:+ "`") +:+ tail)
      with (String "`" ((p +:+ "`") +:+ tail)). simpl. eauto. }
  assert (∃ R, rev (list_ascii_of_string P) = "`"%char :: R) as [R HR].
  { unfold P. change ("`" +:+ p +:+ "`") with (String "`" (p +:+ "`")).
    cbn [list_ascii_of_string]. rewrite list_ascii_of_string_app.
    cbn [list_ascii_of_string rev]. rewrite rev_app_distr. simpl. eauto. }
  unfold PyStr.strip.
  assert (PyStr.lstrip (P +:+ tail) = P +:+ tail) as ->.
  { unfold PyStr.lstrip. rewrite Hl. cbn [PyStr.lstrip_chars].
    change (PyStr.isspace "`") with false. cbn iota.
    by rewrite <- Hl, string_of_list_ascii_of_string. }
  unfold PyStr.rstrip.
  rewrite list_ascii_of_string_app, rev_app_distr, HR.
  destruct (lstrip_chars_app (rev (list_ascii_of_string tail)) R "`")
    as [a' ->]; [done|].
  exists (string_of_list_ascii (rev a')).
  rewrite rev_app_distr, <- HR, rev_involutive.
  by rewrite string_of_list_ascii_app, string_of_list_ascii_of_string.
Qed.

Lemma response_json_text_between a tail :
  Forall (λ c, c ≠ "`"%char) (list_ascii_of_string a) →
  ∃ tail', PyStr.strip ("```" +:+ a +:+ "```" +:+ tail)
           = "```" +:+ a +:+ "```" +:+ tail'
           ∧ py_split "```" ("```" +:+ a +:+ "```" +:+ tail') !! 1 = Some a.
Proof.
  intros Ha.
  assert (∀ t, "```" +:+ a +:+ "```" +:+ t
               = ("`" +:+ ("``" +:+ a +:+ "``") +:+ "`") +:+ t) as Heq.
  { intros t. rewrite !string_app_assoc.
    change ("`" +:+ "``" +:+ a +:+ "``" +:+ "`" +:+ t)
      with ("```" +:+ a +:+ "``" +:+ "`" +:+ t).
    do 2 f_equal. }
  destruct (strip_keeps_fenced ("``" +:+ a +:+ "``") tail) as [tail' Hs].
  exists tail'. rewrite !Heq, Hs, <- Heq. split; [done|].
  by rewrite py_split_fence_head, py_split_until_fence.
Qed.

(** X20.  The text the translate command hands to the JSON parser is
    always defined: taking the piece after a leading code fence never
    fails.  For a response that is a fenced block, with or without the
    [json] tag, whose body has no backtick, it is the body, stripped, and
    whatever follows the closing fence is dropped. *)
Theorem response_json_text_fenced :
  (∀ text, is_Some (response_json_text text))
  ∧ (∀ body tail,
       Forall (λ c, c ≠ "`"%char) (list_ascii_of_string body) →
       response_json_text ("```json" +:+ body +:+ "```" +:+ tail)
       = Some (PyStr.strip body))
  ∧ (∀ body tail,
       Forall (λ c, c ≠ "`"%char) (list_ascii_of_string body) →
       String.prefix "json" body = false →
       response_json_text ("```" +:+ body +:+ "```" +:+ tail)
       = Some (PyStr.strip body)).
Proof.
  split_and!.
  - intros text. unfold response_json_text.
    destruct (String.prefix "```" (PyStr.strip text)) eqn:Hp; [|eauto].
    apply prefix_app_inv in Hp as [b ->].
    rewrite py_split_fence_head.
    pose proof (py_split_from_nonempty "```" 0 b) as Hne.
    unfold py_split. destruct (py_split_from "```" 0 b); [done|]. simpl. eauto.
  - intros body tail Hb. unfold response_json_text.
    destruct (response_json_text_between ("json" +:+ body) tail)
      as (tail' & Hs & Hsplit).
    { rewrite list_ascii_of_string_app. apply Forall_app. split; [|done].
      repeat constructor; done. }
    change ("```json" +:+ body +:+ "```" +:+ tail)
      with ("```" +:+ ("json" +:+ body) +:+ "```" +:+ tail).
    rewrite Hs, Hsplit.
    rewrite (prefix_app "```"), (prefix_app "json" body).
    rewrite string_length_app.
    change (String.length "json") with 4.
    replace (4 + String.length body - 4) with (String.length body) by lia.
    change 4 with (String.length "json") at 1.
    by rewrite substring_app_suffix, substring_full.
  - intros body tail Hb Hj. unfold response_json_text.
    destruct (response_json_text_between body tail) as (tail' & Hs & Hsplit);
      [done|].
    rewrite Hs, Hsplit, (prefix_app "```"), Hj. done.
Qed.

(** ** The order of the records *)

Lemma merge_record_outcome po c m v :
  merge_record po c (m, v)
  = apply_outcome po c <$> record_outcome (find po m) v.
Proof.
  unfold merge_record, record_outcome.
  repeat case_match; simplify_eq; done.
Qed.

Lemma record_outcome_updated found v i e' :
  record_outcome found v = Some (Updated i e') →
  ∃ e, found = Some (i, e) ∧ msgid e' = msgid e.
Proof.
  unfold record_outcome. intros Ho.
  repeat case_match; simplify_eq; eauto.
Qed.

Lemma apply_outcome_comm po c o1 o2 :
  (∀ i1 e1 i2 e2, o1 = Updated i1 e1 → o2 = Updated i2 e2 → i1 ≠ i2) →
  (let '(po1, c1) := apply_outcome po c o1 in apply_outcome po1 c1 o2)
  = (let '(po2, c2) := apply_outcome po c o2 in apply_outcome po2 c2 o1).
Proof.
  intros Hne. destruct o1 as [|i1 e1| |], o2 as [|i2 e2| |]; simpl; try done.
  rewrite list_insert_insert_ne; [done|].
  first [by eapply Hne | apply not_eq_sym; by eapply Hne].
Qed.

Lemma merge_record_comm po c m1 v1 m2 v2 :
  m1 ≠ m2 →
  merge_loop po c [(m1, v1); (m2, v2)] = merge_loop po c [(m2, v2); (m1, v1)].
Proof.
  intros Hne. cbn [merge_loop].
  destruct (merge_record po c (m1, v1)) as [[po1 c1]|] eqn:H1,
           (merge_record po c (m2, v2)) as [[po2 c2]|] eqn:H2.
  - pose proof (merge_record_find_other _ _ _ _ _ _ m2 Hne H1) as Hf2.
    pose proof (merge_record_find_other _ _ _ _ _ _ m1 (not_eq_sym Hne) H2) as Hf1.
    rewrite !merge_record_outcome, Hf1, Hf2.
    rewrite merge_record_outcome in H1, H2.
    destruct (record_outcome (find po m1) v1) as [o1|] eqn:Ho1; [|done].
    destruct (record_outcome (find po m2) v2) as [o2|] eqn:Ho2; [|done].
    simpl in *. simplify_eq.
    pose proof (apply_outcome_comm po c o1 o2) as Hc.
    rewrite H1, H2 in Hc. rewrite Hc; [done|].
    intros i1 e1 i2 e2 -> -> ->.
    apply record_outcome_updated in Ho1 as (x1 & Hx1 & _).
    apply record_outcome_updated in Ho2 as (x2 & Hx2 & _).
    apply find_Some in Hx1 as [? ?]. apply find_Some in Hx2 as [? ?].
    congruence.
  - pose proof (merge_record_find_other _ _ _ _ _ _ m2 Hne H1) as Hf2.
    rewrite merge_record_outcome, Hf2.
    rewrite merge_record_outcome in H2.
    by destruct (record_outcome (find po m2) v2).
  - pose proof (merge_record_find_other _ _ _ _ _ _ m1 (not_eq_sym Hne) H2) as Hf1.
    rewrite merge_record_outcome, Hf1.
    rewrite merge_record_outcome in H1.
    by destruct (record_outcome (find po m1) v1).
  - done.
Qed.

Lemma merge_loop_permutation recs recs' :
  recs ≡ₚ recs' → NoDup recs.*1 →
  ∀ po c, merge_loop po c recs' = merge_loop po c recs.
Proof.
  induction 1 as [|r l l' Hp IH|[m1 v1] [m2 v2] l|l1 l2 l3 H12 IH12 H23 IH23];
    intros Hnd po c.
  - done.
  - rewrite !merge_loop_cons. rewrite fmap_cons in Hnd.
    apply NoDup_cons in Hnd as [_ Hnd].
    destruct (merge_record po c r) as [[po1 c1]|]; [by apply IH | done].
  - rewrite !fmap_cons in Hnd. apply NoDup_cons in Hnd as [Hne _].
    apply not_elem_of_cons in Hne as [Hne _]. simpl in Hne.
    change ((m1, v1) :: (m2, v2) :: l) with ([(m1, v1); (m2, v2)] ++ l).
    change ((m2, v2) :: (m1, v1) :: l) with ([(m2, v2); (m1, v1)] ++ l).
    rewrite !merge_loop_app. by rewrite (merge_record_comm po c m1 v1 m2 v2).
  - assert (NoDup l2.*1) as Hnd2 by (by rewrite <- H12).
    by rewrite IH23, IH12.
Qed.

(** X21.  The result of a merge does not depend on the order of the
    records: two mappings with the same records, each msgid once, give
    the same catalog and the same counters, or both raise. *)
Theorem merge_order_independent po translations translations' :
  translations ≡ₚ translations' →
  NoDup translations.*1 →
  merge po translations' = merge po translations.
Proof. intros Hp Hnd. by apply merge_loop_permutation. Qed.

Lemma merge_order_independent_witness :
  let e1 := mkPOEntry "Save" "" "" ∅ [("a.py", 3)] true in
  let e2 := mkPOEntry "%d file" "%d files" "" {[0 := ""; 1 := ""]} [] false in
  let r1 := ("Save", TStr "Speichern") in
  let r2 := ("%d file", TDict (Some (MsgstrList ["%d Datei"; "%d Dateien"]))) in
  let r3 := ("Open", TDict (Some (MsgstrStr "Offnen"))) in
  merge [e1; e2] [r2; r1; r3] = merge [e1; e2] [r1; r2; r3].
Proof.
  intros e1 e2 r1 r2 r3.
  apply (merge_order_independent [e1; e2] [r1; r2; r3] [r2; r1; r3]).
  - apply Permutation_swap.
  - apply (bool_decide_unpack _). vm_compute. exact I.
Defined.
